(** * A model of the storage tracker's scanner (crate [scanner])

    Shallow embedding of [models.rs] ([FileEntry::from_path]), the batching
    thread of [Scanner::scan_parallel] ([scanner.rs]), [writer.rs]
    ([ParquetFileWriter]) and [rotating_writer.rs] ([ScanManifest],
    [RotatingParquetWriter]).

    Conventions.
    - [u64]/[usize] values are [N] with their wrap-around written out
      (release-build semantics of [+=]); [i64] values are [Z].
    - Strings are ASCII [string]s; [to_string_lossy] is the identity.
    - Paths are strings, parsed into components as [std::path] does.
    - The outside world (clocks, file sizes, success of I/O calls) is an
      explicit environment argument; I/O performed by the writer is recorded
      in an explicit log of events. *)

From Stdlib Require Import String Ascii ZArith NArith Lia.
From stdpp Require Import base gmap sets list strings.

Local Open Scope N_scope.

(** ** Results and fixed-width arithmetic *)

Inductive Error :=
| IoError (what : string)
| TimeError          (* [SystemTimeError] from [duration_since] *)
| Panic (what : string).

Inductive Result (A : Type) :=
| Ok (a : A)
| Err (e : Error).
Arguments Ok {A} a.
Arguments Err {A} e.

#[global] Instance Result_ret : MRet Result := fun _ a => Ok a.
#[global] Instance Result_bind : MBind Result :=
  fun _ _ k m => match m with Ok a => k a | Err e => Err e end.

Definition u64_wrap (n : N) : N := n mod 2 ^ 64.
Definition u32_wrap (n : N) : N := n mod 2 ^ 32.
(** [x as i64] for a [u64] [x]. *)
Definition u64_as_i64 (n : N) : Z :=
  if n <? 2 ^ 63 then Z.of_N n else (Z.of_N n - 2 ^ 64)%Z.

(** ** Paths ([std::path]) *)

Module Paths.

Inductive Component :=
| RootDir
| CurDir
| ParentDir
| Normal (s : string).

Definition comp_eqb (a b : Component) : bool :=
  match a, b with
  | RootDir, RootDir | CurDir, CurDir | ParentDir, ParentDir => true
  | Normal x, Normal y => String.eqb x y
  | _, _ => false
  end.

(** [Component::as_os_str]. *)
Definition comp_str (c : Component) : string :=
  match c with
  | RootDir => "/"
  | CurDir => "."
  | ParentDir => ".."
  | Normal s => s
  end%string.

(** [str::split('/')]: [split_slash ""] is [[""]]. *)
Fixpoint split_slash (s : string) : list string :=
  match s with
  | EmptyString => [EmptyString]
  | String c rest =>
      if Ascii.eqb c "/"%char then EmptyString :: split_slash rest
      else match split_slash rest with
           | x :: xs => String c x :: xs
           | [] => [String c EmptyString]
           end
  end.

(** Body segments: empty segments and [.] are dropped, [..] is a parent. *)
Fixpoint body_components (segs : list string) : list Component :=
  match segs with
  | [] => []
  | s :: rest =>
      if String.eqb s "" then body_components rest
      else if String.eqb s "." then body_components rest
      else if String.eqb s ".." then ParentDir :: body_components rest
      else Normal s :: body_components rest
  end%string.

(** [Path::components]: a leading [/] is the root; a leading [.] of a
    relative path is kept as [CurDir]; repeated and trailing separators and
    interior [.] are normalised away. *)
Definition components (p : string) : list Component :=
  match p with
  | String c _ =>
      if Ascii.eqb c "/"%char then RootDir :: body_components (tail (split_slash p))
      else match split_slash p with
           | s :: rest =>
               if String.eqb s "." then CurDir :: body_components rest
               else body_components (s :: rest)
           | [] => []
           end
  | EmptyString => []
  end%string.

Fixpoint last_component (cs : list Component) : option Component :=
  match cs with
  | [] => None
  | [c] => Some c
  | _ :: rest => last_component rest
  end.

Fixpoint join_slash (xs : list string) : string :=
  match xs with
  | [] => ""
  | [x] => x
  | x :: rest => x +:+ "/" +:+ join_slash rest
  end%string.

(** A path rendered from its components ([Components::as_path]; for a path
    written without redundant separators this is the same text). *)
Definition render (cs : list Component) : string :=
  match cs with
  | RootDir :: rest => "/" +:+ join_slash (map comp_str rest)
  | _ => join_slash (map comp_str cs)
  end%string.

(** [Path::file_name]. *)
Definition file_name (p : string) : option string :=
  match last_component (components p) with
  | Some (Normal s) => Some s
  | _ => None
  end.

(** [Path::parent]. *)
Definition parent (p : string) : option string :=
  let cs := components p in
  match last_component cs with
  | Some (Normal _) | Some CurDir | Some ParentDir => Some (render (removelast cs))
  | _ => None
  end.

(** [rsplitn(2, '.')]: the text before and after the last dot. *)
Fixpoint rsplit_dot (s : string) : option (string * string) :=
  match s with
  | EmptyString => None
  | String c rest =>
      match rsplit_dot rest with
      | Some (b, a) => Some (String c b, a)
      | None => if Ascii.eqb c "."%char then Some (EmptyString, rest) else None
      end
  end.

(** [rsplit_file_at_dot]. *)
Definition rsplit_file_at_dot (file : string) : option string * option string :=
  if String.eqb file ".." then (Some file, None)
  else match rsplit_dot file with
       | None => (None, Some file)
       | Some (b, a) => if String.eqb b "" then (Some file, None) else (Some b, Some a)
       end%string.

(** [Path::extension]: [before.and(after)]. *)
Definition extension (p : string) : option string :=
  match file_name p with
  | Some f =>
      match rsplit_file_at_dot f with
      | (Some _, a) => a
      | (None, _) => None
      end
  | None => None
  end.

(** [Path::file_stem]: [before.or(after)]. *)
Definition file_stem (p : string) : option string :=
  match file_name p with
  | Some f =>
      match rsplit_file_at_dot f with
      | (Some b, _) => Some b
      | (None, a) => a
      end
  | None => None
  end.

(** [iter_after], the core of [Path::strip_prefix]. *)
Fixpoint iter_after (xs prefix : list Component) : option (list Component) :=
  match xs, prefix with
  | x :: xs', y :: prefix' => if comp_eqb x y then iter_after xs' prefix' else None
  | _, [] => Some xs
  | [], _ :: _ => None
  end.

Definition strip_prefix (p base : string) : option (list Component) :=
  iter_after (components p) (components base).

(** [PathBuf::join] of a relative file name. *)
Definition join (dir name : string) : string :=
  match dir with
  | EmptyString => name
  | _ => if String.eqb (String.substring (String.length dir - 1) 1 dir) "/"
         then dir +:+ name else dir +:+ "/" +:+ name
  end%string.

End Paths.

(** ** File entries ([models.rs]) *)

Module Models.
Import Paths.

Record FileEntry := {
  path : string;
  size : N;
  modified_time : Z;
  accessed_time : Z;
  created_time : option Z;
  file_type : string;
  inode : N;
  permissions : N;
  parent_path : string;
  depth : N;
  top_level_dir : string;
}.

(** [std::fs::Metadata]. A [SystemTime] is a signed count of nanoseconds
    from the Unix epoch; [None] for a timestamp means the call returned an
    [io::Error] (e.g. unsupported on the platform). *)
Record Metadata := {
  md_is_dir : bool;
  md_len : N;
  md_modified : option Z;
  md_accessed : option Z;
  md_created : option Z;
  md_ino : N;
  md_mode : N;
}.

(** [t.duration_since(UNIX_EPOCH)], as a [Duration] in nanoseconds. *)
Definition duration_since_epoch (t : Z) : Result N :=
  if (0 <=? t)%Z then Ok (Z.to_N t) else Err TimeError.

(** [Duration::as_secs]. *)
Definition as_secs (d : N) : N := d / 10 ^ 9.

(** [metadata.modified()?] (resp. [accessed()?]). *)
Definition io_time (what : string) (t : option Z) : Result Z :=
  match t with Some x => Ok x | None => Err (IoError what) end.

(** [metadata.created().ok().and_then(|t| t.duration_since(UNIX_EPOCH).ok())
     .map(|d| d.as_secs() as i64)]. *)
Definition created_secs (t : option Z) : option Z :=
  match t with
  | Some x => match duration_since_epoch x with
              | Ok d => Some (u64_as_i64 (as_secs d))
              | Err _ => None
              end
  | None => None
  end.

(** The [file_type] column. *)
Definition entry_file_type (p : string) (md : Metadata) : string :=
  if md_is_dir md then "directory"%string
  else match extension p with
       | Some e => e
       | None => "no_extension"%string
       end.

(** [FileEntry::from_path]. *)
Definition from_path (p : string) (md : Metadata) (scan_root : string) : Result FileEntry :=
  let path_str := p in
  let parent_path := match parent p with Some q => q | None => "/"%string end in
  let depth := match strip_prefix p scan_root with
               | Some rest => u32_wrap (N.of_nat (length rest))
               | None => 0
               end in
  let top_level_dir :=
    match strip_prefix p scan_root with
    | Some (c :: _) => comp_str c
    | _ => match file_name scan_root with
           | Some n => n
           | None => "root"%string
           end
    end in
  let file_type := entry_file_type p md in
  m ← io_time "modified" (md_modified md);
  dm ← duration_since_epoch m;
  let modified_time := u64_as_i64 (as_secs dm) in
  a ← io_time "accessed" (md_accessed md);
  da ← duration_since_epoch a;
  let accessed_time := u64_as_i64 (as_secs da) in
  let created_time := created_secs (md_created md) in
  Ok {| path := path_str;
        size := md_len md;
        modified_time := modified_time;
        accessed_time := accessed_time;
        created_time := created_time;
        file_type := file_type;
        inode := md_ino md;
        permissions := md_mode md;
        parent_path := parent_path;
        depth := depth;
        top_level_dir := top_level_dir |}.

End Models.

(** ** The scanner's per-entry handling and batching thread ([scanner.rs]) *)

Module Scanner.
Import Models.

(** The five shared counters of [scan_parallel]. *)
Record Counters := {
  files : N;
  dirs : N;
  bytes : N;
  errors : N;
  skipped : N;
}.

(** One walker item: the entry's path and the result of
    [std::fs::metadata] on it ([None] for an error). A walker error is
    [WalkErr]. *)
Inductive WalkItem :=
| WalkOk (p : string) (md : option Metadata)
| WalkErr.

(** The body of the [for_each] closure of [scan_parallel]: the new counters,
    and the entry sent to the batching thread, if any. *)
Definition process_entry (root : string) (skip_dirs : option (gset string))
    (c : Counters) (item : WalkItem) : Counters * option FileEntry :=
  match item with
  | WalkErr => ({| files := files c; dirs := dirs c; bytes := bytes c;
                   errors := u64_wrap (errors c + 1); skipped := skipped c |}, None)
  | WalkOk p None => ({| files := files c; dirs := dirs c; bytes := bytes c;
                         errors := u64_wrap (errors c + 1); skipped := skipped c |}, None)
  | WalkOk p (Some md) =>
      match from_path p md root with
      | Err _ => ({| files := files c; dirs := dirs c; bytes := bytes c;
                     errors := u64_wrap (errors c + 1); skipped := skipped c |}, None)
      | Ok e =>
          match skip_dirs with
          | Some s =>
              if decide (top_level_dir e ∈ s)
              then ({| files := files c; dirs := dirs c; bytes := bytes c;
                       errors := errors c; skipped := u64_wrap (skipped c + 1) |}, None)
              else if md_is_dir md
                   then ({| files := files c; dirs := u64_wrap (dirs c + 1); bytes := bytes c;
                            errors := errors c; skipped := skipped c |}, Some e)
                   else ({| files := u64_wrap (files c + 1); dirs := dirs c;
                            bytes := u64_wrap (bytes c + md_len md);
                            errors := errors c; skipped := skipped c |}, Some e)
          | None =>
              if md_is_dir md
              then ({| files := files c; dirs := u64_wrap (dirs c + 1); bytes := bytes c;
                       errors := errors c; skipped := skipped c |}, Some e)
              else ({| files := u64_wrap (files c + 1); dirs := dirs c;
                       bytes := u64_wrap (bytes c + md_len md);
                       errors := errors c; skipped := skipped c |}, Some e)
          end
      end
  end.

(** The batching thread of [scan_parallel]: entries arrive in channel
    order; each is pushed, and the buffer is sent as soon as its length
    reaches [batch_size]; a non-empty remainder is sent when the channel
    closes. (A failed send means the writer is gone; sends are modelled as
    succeeding.) *)
Fixpoint batch_loop (batch_size : nat) (batch : list FileEntry)
    (input : list FileEntry) : list (list FileEntry) :=
  match input with
  | [] => match batch with [] => [] | _ => [batch] end
  | e :: rest =>
      let batch' := batch ++ [e] in
      if (batch_size <=? length batch')%nat
      then batch' :: batch_loop batch_size [] rest
      else batch_loop batch_size batch' rest
  end.

Definition batcher (batch_size : nat) (input : list FileEntry) : list (list FileEntry) :=
  batch_loop batch_size [] input.

(** The [for_each] of [scan_parallel] over the walker's items, taken in the
    order the workers handle them: the final counters, and the entries sent
    to the batching thread, in the order they are sent. *)
Fixpoint scan_items (root : string) (skip_dirs : option (gset string)) (c : Counters)
    (items : list WalkItem) : Counters * list FileEntry :=
  match items with
  | [] => (c, [])
  | item :: rest =>
      let '(c1, sent) := process_entry root skip_dirs c item in
      let '(c2, es) := scan_items root skip_dirs c1 rest in
      (c2, match sent with Some e => e :: es | None => es end)
  end.

End Scanner.

(** ** The scan manifest ([rotating_writer.rs]) *)

Module Manifest.

Record ChunkMetadata := {
  chunk_number : N;
  file_path : string;
  row_count : N;
  file_size : N;
  created_at : Z;
}.

Record ScanManifest := MkManifest {
  scan_path : string;
  total_rows : N;
  chunk_count : N;
  chunks : list ChunkMetadata;
  scan_start : Z;
  scan_end : option Z;
  completed : bool;
  completed_top_level_dirs : gset string;
  current_top_level_dir : option string;
}.

(** [ScanManifest::new]; [now] is the wall clock in Unix seconds. *)
Definition new (scan_path : string) (now : Z) : ScanManifest :=
  MkManifest scan_path 0 0 [] now None false ∅ None.

Definition is_dir_completed (m : ScanManifest) (dir : string) : bool :=
  bool_decide (dir ∈ completed_top_level_dirs m).

Definition start_directory (m : ScanManifest) (dir : string) : ScanManifest :=
  MkManifest (scan_path m) (total_rows m) (chunk_count m) (chunks m) (scan_start m)
    (scan_end m) (completed m) (completed_top_level_dirs m) (Some dir).

Definition complete_current_directory (m : ScanManifest) : ScanManifest :=
  match current_top_level_dir m with
  | Some dir =>
      MkManifest (scan_path m) (total_rows m) (chunk_count m) (chunks m) (scan_start m)
        (scan_end m) (completed m) ({[dir]} ∪ completed_top_level_dirs m) None
  | None => m
  end.

Definition add_chunk (m : ScanManifest) (md : ChunkMetadata) : ScanManifest :=
  MkManifest (scan_path m) (u64_wrap (total_rows m + row_count md))
    (u64_wrap (chunk_count m + 1)) (chunks m ++ [md]) (scan_start m)
    (scan_end m) (completed m) (completed_top_level_dirs m) (current_top_level_dir m).

Definition complete (m : ScanManifest) (now : Z) : ScanManifest :=
  MkManifest (scan_path m) (total_rows m) (chunk_count m) (chunks m) (scan_start m)
    (Some now) true (completed_top_level_dirs m) (current_top_level_dir m).

(** What [resume] does to a manifest returned by [load_from_file]. *)
Definition reset_for_resume (m : ScanManifest) : ScanManifest :=
  MkManifest (scan_path m) (total_rows m) (chunk_count m) (chunks m) (scan_start m)
    None false (completed_top_level_dirs m) (current_top_level_dir m).

(** The manifest file as [resume] finds it: absent, present but not
    readable or not parseable ([load_from_file] fails), or parsed. *)
Inductive ManifestFile :=
| Missing
| Unloadable
| Parsed (m : ScanManifest).

(** *** The file system operations of [save_to_file] *)

Inductive FsOp :=
| FsCreate (p : string)               (* [File::create]: create or truncate *)
| FsWrite (p : string) (data : string) (* [write_all] through the handle *)
| FsRename (src dst : string).

Definition apply_op (fs : gmap string string) (op : FsOp) : gmap string string :=
  match op with
  | FsCreate p => <[p := ""%string]> fs
  | FsWrite p d => <[p := (default ""%string (fs !! p) +:+ d)%string]> fs
  | FsRename src dst =>
      match fs !! src with
      | Some d => <[dst := d]> (delete src fs)
      | None => fs
      end
  end.

Definition apply_ops (fs : gmap string string) (ops : list FsOp) : gmap string string :=
  foldl apply_op fs ops.

(** [ScanManifest::save_to_file]: [json] is the text produced by
    [serde_json::to_string_pretty(self)] (taken as given: the member order
    of the [HashSet] is unspecified). The file operations it performs on
    [path], in order. *)
Definition save_to_file (json : string) (path : string) : list FsOp :=
  [FsCreate path; FsWrite path json].

End Manifest.

(** ** The Parquet writers ([writer.rs], [rotating_writer.rs]) *)

Module Writer.
Import Paths Models Manifest.

Record RotatingWriterConfig := {
  base_output_path : string;
  rows_per_chunk : N;
  time_interval : N;   (* nanoseconds *)
}.

(** What the outside world answers during one call: the monotonic clock
    ([Instant], in nanoseconds) at each of its readings, the wall clock
    (Unix seconds), the size of a closed chunk file, and whether each kind
    of I/O succeeds. [new], [resume], and a [rotate] that [write_batch]
    calls before writing, read the clock as [now_instant]; the
    [last_rotation.elapsed()] of [should_rotate] reads it as
    [check_instant], after the write; the [rotate] after that check reads
    it as [reopen_instant]. *)
Record Env := {
  now_instant : N;
  check_instant : N;
  reopen_instant : N;
  now_unix : Z;
  chunk_file_size : N;
  create_ok : bool;
  write_ok : bool;
  close_ok : bool;
  save_ok : bool;
}.

(** I/O performed by the rotating writer. [EvSave p m]: manifest [m]
    persisted to [p]. *)
Inductive Event :=
| EvOpen (chunk : N) (p : string)
| EvWrite (chunk : N) (rows : N)
| EvClose (chunk : N) (rows : N)
| EvSave (p : string) (m : ScanManifest).

(** *** [ParquetFileWriter] *)

Record ParquetFileWriter := {
  pw_path : string;
  rows_written : N;
}.

Definition pw_new (env : Env) (p : string) : Result ParquetFileWriter :=
  if create_ok env then Ok {| pw_path := p; rows_written := 0 |}
  else Err (IoError "Failed to create output file").

Definition pw_write_batch (env : Env) (pw : ParquetFileWriter)
    (entries : list FileEntry) : Result ParquetFileWriter :=
  match entries with
  | [] => Ok pw
  | _ =>
      if write_ok env
      then Ok {| pw_path := pw_path pw;
                 rows_written := u64_wrap (rows_written pw + N.of_nat (length entries)) |}
      else Err (IoError "Failed to write record batch")
  end.

Definition pw_close (env : Env) (pw : ParquetFileWriter) : Result unit :=
  if close_ok env then Ok tt else Err (IoError "Failed to close Parquet writer").

(** [ParquetFileWriter::consume_batches]: each received batch is written
    with the world's answers at that time; then the writer is closed and
    the number of rows it wrote is returned. *)
Fixpoint pw_write_all (pw : ParquetFileWriter) (steps : list (Env * list FileEntry))
    : Result ParquetFileWriter :=
  match steps with
  | [] => Ok pw
  | (env, batch) :: rest => pw' ← pw_write_batch env pw batch; pw_write_all pw' rest
  end.

Definition pw_consume_batches (pw : ParquetFileWriter) (steps : list (Env * list FileEntry))
    (final_env : Env) : Result N :=
  pw' ← pw_write_all pw steps;
  let total_rows := rows_written pw' in
  _ ← pw_close final_env pw';
  Ok total_rows.

(** [write_to_parquet]: the single-file writer of the non-incremental mode. *)
Definition write_to_parquet (env : Env) (output_path : string)
    (steps : list (Env * list FileEntry)) (final_env : Env) : Result N :=
  pw ← pw_new env output_path; pw_consume_batches pw steps final_env.

(** *** File names *)

Fixpoint dec_aux (fuel : nat) (n : N) (acc : string) : string :=
  match fuel with
  | O => acc
  | S f =>
      let acc' := String (ascii_of_N (48 + n mod 10)) acc in
      if n <? 10 then acc' else dec_aux f (n / 10) acc'
  end.

(** Decimal rendering of a [usize]. *)
Definition to_decimal (n : N) : string := dec_aux 20 n EmptyString.

Fixpoint zeros (k : nat) : string :=
  match k with O => EmptyString | S k' => String "0"%char (zeros k') end.

(** [format!("{:04}", n)]. *)
Definition fmt04 (n : N) : string :=
  let s := to_decimal n in (zeros (4 - String.length s) +:+ s)%string.

Definition base_parent (base : string) : string :=
  match parent base with Some q => q | None => "."%string end.

(** [get_manifest_path] / [get_manifest_path_static]; [file_stem().unwrap()]
    panics on a path without a file name. *)
Definition get_manifest_path (cfg : RotatingWriterConfig) : Result string :=
  let base := base_output_path cfg in
  match file_stem base with
  | Some stem => Ok (join (base_parent base) (stem +:+ "_manifest.json"))%string
  | None => Err (Panic "file_stem")
  end.

Definition get_chunk_path (cfg : RotatingWriterConfig) (n : N) : Result string :=
  let base := base_output_path cfg in
  match file_stem base with
  | Some stem =>
      let ext := match extension base with Some e => e | None => ""%string end in
      Ok (join (base_parent base) (stem +:+ "_chunk_" +:+ fmt04 n +:+ "." +:+ ext))%string
  | None => Err (Panic "file_stem")
  end.

(** *** [RotatingParquetWriter] *)

Record RotatingParquetWriter := MkWriter {
  config : RotatingWriterConfig;
  current_writer : option ParquetFileWriter;
  current_chunk : N;
  current_chunk_rows : N;
  last_rotation : N;
  manifest : ScanManifest;
  last_top_level_dir : option string;
  io_log : list Event;   (* I/O performed so far, oldest first *)
}.

Definition new (cfg : RotatingWriterConfig) (scan_path : string) (env : Env)
    : Result RotatingParquetWriter :=
  Ok (MkWriter cfg None 0 0 (now_instant env) (Manifest.new scan_path (now_unix env))
        None []).

(** [RotatingParquetWriter::resume], given what is found at the manifest
    path. *)
Definition resume (cfg : RotatingWriterConfig) (scan_path : string) (env : Env)
    (file : ManifestFile) : Result RotatingParquetWriter :=
  _ ← get_manifest_path cfg;
  m ← match file with
      | Missing => Ok (Manifest.new scan_path (now_unix env))
      | Unloadable => Err (IoError "Failed to read manifest file")
      | Parsed m => Ok (reset_for_resume m)
      end;
  Ok (MkWriter cfg None (chunk_count m) 0 (now_instant env) m None []).

(** [save_to_file(..).unwrap_or_else(warn)]: a failed save is only logged. *)
Definition save_event (env : Env) (p : string) (m : ScanManifest) : list Event :=
  if save_ok env then [EvSave p m] else [].

Definition should_rotate (env : Env) (w : RotatingParquetWriter) : bool :=
  (rows_per_chunk (config w) <=? current_chunk_rows w)
  || (time_interval (config w) <=? check_instant env - last_rotation w).

(** Closing the current chunk in [rotate]: record its metadata and save the
    manifest. *)
Definition close_chunk (env : Env) (w : RotatingParquetWriter) (pw : ParquetFileWriter)
    : Result RotatingParquetWriter :=
  let rows := rows_written pw in
  _ ← pw_close env pw;
  chunk_path ← get_chunk_path (config w) (current_chunk w);
  let md := {| chunk_number := current_chunk w; file_path := chunk_path;
               row_count := rows; file_size := chunk_file_size env;
               created_at := now_unix env |} in
  let m := add_chunk (manifest w) md in
  manifest_path ← get_manifest_path (config w);
  Ok (MkWriter (config w) None (current_chunk w) (current_chunk_rows w) (last_rotation w)
        m (last_top_level_dir w)
        (io_log w ++ [EvClose (current_chunk w) rows] ++ save_event env manifest_path m)).

(** [rotate], where [Instant::now()] returns [now]. *)
Definition rotate (env : Env) (now : N) (w : RotatingParquetWriter)
    : Result RotatingParquetWriter :=
  w1 ← match current_writer w with
       | Some pw => close_chunk env w pw
       | None => Ok w
       end;
  let k := u64_wrap (current_chunk w1 + 1) in
  chunk_path ← get_chunk_path (config w1) k;
  pw ← pw_new env chunk_path;
  Ok (MkWriter (config w1) (Some pw) k 0 now (manifest w1)
        (last_top_level_dir w1) (io_log w1 ++ [EvOpen k chunk_path])).

(** Directory tracking at the start of [write_batch]. *)
Definition track_directory (env : Env) (w : RotatingParquetWriter) (current_dir : string)
    : Result RotatingParquetWriter :=
  match last_top_level_dir w with
  | Some last_dir =>
      if String.eqb last_dir current_dir
      then Ok (MkWriter (config w) (current_writer w) (current_chunk w)
                 (current_chunk_rows w) (last_rotation w) (manifest w)
                 (Some current_dir) (io_log w))
      else
        let m := start_directory (complete_current_directory (manifest w)) current_dir in
        manifest_path ← get_manifest_path (config w);
        Ok (MkWriter (config w) (current_writer w) (current_chunk w)
              (current_chunk_rows w) (last_rotation w) m (Some current_dir)
              (io_log w ++ save_event env manifest_path m))
  | None =>
      Ok (MkWriter (config w) (current_writer w) (current_chunk w)
            (current_chunk_rows w) (last_rotation w)
            (start_directory (manifest w) current_dir) (Some current_dir) (io_log w))
  end.

(** Writing the batch to the current chunk. *)
Definition write_current (env : Env) (w : RotatingParquetWriter) (entries : list FileEntry)
    : Result RotatingParquetWriter :=
  match current_writer w with
  | Some pw =>
      pw' ← pw_write_batch env pw entries;
      Ok (MkWriter (config w) (Some pw') (current_chunk w)
            (u64_wrap (current_chunk_rows w + N.of_nat (length entries)))
            (last_rotation w) (manifest w) (last_top_level_dir w)
            (io_log w ++ [EvWrite (current_chunk w) (N.of_nat (length entries))]))
  | None => Ok w
  end.

Definition write_batch (env : Env) (w : RotatingParquetWriter) (entries : list FileEntry)
    : Result RotatingParquetWriter :=
  match entries with
  | [] => Ok w
  | first_entry :: _ =>
      w1 ← track_directory env w (top_level_dir first_entry);
      w2 ← match current_writer w1 with
           | None => rotate env (now_instant env) w1
           | Some _ => Ok w1
           end;
      w3 ← write_current env w2 entries;
      if should_rotate env w3 then rotate env (reopen_instant env) w3 else Ok w3
  end.

(** [finalize]: the final manifest, with the I/O log of the whole run. *)
Definition finalize (env : Env) (w : RotatingParquetWriter)
    : Result (ScanManifest * list Event) :=
  w1 ← match current_writer w with
       | Some pw =>
           let rows := rows_written pw in
           _ ← pw_close env pw;
           chunk_path ← get_chunk_path (config w) (current_chunk w);
           let md := {| chunk_number := current_chunk w; file_path := chunk_path;
                        row_count := rows; file_size := chunk_file_size env;
                        created_at := now_unix env |} in
           Ok (MkWriter (config w) None (current_chunk w) (current_chunk_rows w)
                 (last_rotation w) (add_chunk (manifest w) md) (last_top_level_dir w)
                 (io_log w ++ [EvClose (current_chunk w) rows]))
       | None => Ok w
       end;
  let m := complete (manifest w1) (now_unix env) in
  manifest_path ← get_manifest_path (config w1);
  if save_ok env then Ok (m, io_log w1 ++ [EvSave manifest_path m])
  else Err (IoError "Failed to create manifest file").

(** [consume_batches]: each received batch is written with the world's
    answers at that time; then the writer is finalized. *)
Fixpoint write_all (w : RotatingParquetWriter) (steps : list (Env * list FileEntry))
    : Result RotatingParquetWriter :=
  match steps with
  | [] => Ok w
  | (env, batch) :: rest => w' ← write_batch env w batch; write_all w' rest
  end.

Definition consume_batches (w : RotatingParquetWriter) (steps : list (Env * list FileEntry))
    (final_env : Env) : Result (ScanManifest * list Event) :=
  w' ← write_all w steps; finalize final_env w'.

End Writer.

(** ** Helpers of [utils.rs] *)

Module Utils.

(** The loop of [format_number] over the reversed digits: [i] is the
    index of digit [c], [result] the text built so far ([String::insert(0,
    _)] prepends). *)
Fixpoint format_number_loop (i : nat) (chars : list ascii) (result : list ascii) : list ascii :=
  match chars with
  | [] => result
  | c :: rest =>
      let result1 := if (0 <? i)%nat && (i mod 3 =? 0)%nat then ","%char :: result else result in
      format_number_loop (S i) rest (c :: result1)
  end.

(** [format_number]: [num.to_string()] with a comma inserted every three
    digits from the right. *)
Definition format_number (num : N) : string :=
  string_of_list_ascii
    (format_number_loop 0 (rev (list_ascii_of_string (Writer.to_decimal num))) []).

End Utils.

(** ** Record batches ([ParquetFileWriter::entries_to_record_batch]) *)

Module Arrow.
Import Models.

Inductive DataType := Utf8 | UInt64 | Int64 | UInt32.

Definition data_type_eqb (a b : DataType) : bool :=
  match a, b with
  | Utf8, Utf8 | UInt64, UInt64 | Int64, Int64 | UInt32, UInt32 => true
  | _, _ => false
  end.

Record Field := MkField {
  field_name : string;
  data_type : DataType;
  nullable : bool;
}.

(** An Arrow array, as a list of optional values ([None] is a null). *)
Inductive ArrayRef :=
| StringArray (vs : list (option string))
| UInt64Array (vs : list (option N))
| Int64Array (vs : list (option Z))
| UInt32Array (vs : list (option N)).

Definition nulls {A} (vs : list (option A)) : nat :=
  length (List.filter (fun o => match o with None => true | Some _ => false end) vs).

Definition array_len (a : ArrayRef) : nat :=
  match a with
  | StringArray vs => length vs | UInt64Array vs => length vs
  | Int64Array vs => length vs | UInt32Array vs => length vs
  end.

Definition array_type (a : ArrayRef) : DataType :=
  match a with
  | StringArray _ => Utf8 | UInt64Array _ => UInt64
  | Int64Array _ => Int64 | UInt32Array _ => UInt32
  end.

Definition null_count (a : ArrayRef) : nat :=
  match a with
  | StringArray vs => nulls vs | UInt64Array vs => nulls vs
  | Int64Array vs => nulls vs | UInt32Array vs => nulls vs
  end.

Record RecordBatch := MkRecordBatch {
  rb_schema : list Field;
  rb_columns : list ArrayRef;
  num_rows : nat;
}.

(** [create_schema]. *)
Definition create_schema : list Field :=
  [MkField "path" Utf8 false; MkField "size" UInt64 false;
   MkField "modified_time" Int64 false; MkField "accessed_time" Int64 false;
   MkField "created_time" Int64 true; MkField "file_type" Utf8 false;
   MkField "inode" UInt64 false; MkField "permissions" UInt32 false;
   MkField "parent_path" Utf8 false; MkField "depth" UInt32 false;
   MkField "top_level_dir" Utf8 false]%string.

(** [RecordBatch::try_new] with default options, its checks in order: as
    many columns as fields; the row count is the first column's length;
    no null in a non-nullable field; column types equal to the field types;
    all columns of the row count's length. The caller's [.context(..)]
    gives every failure the same message. *)
Definition record_batch_try_new (schema : list Field) (columns : list ArrayRef)
    : Result RecordBatch :=
  let fail := Err (IoError "Failed to create record batch") in
  if negb (length schema =? length columns)%nat then fail
  else match columns with
  | [] => fail
  | c0 :: _ =>
      let row_count := array_len c0 in
      if existsb (fun cf => negb (nullable (snd cf)) && (0 <? null_count (fst cf))%nat)
                 (combine columns schema) then fail
      else if existsb (fun cf => negb (data_type_eqb (array_type (fst cf)) (data_type (snd cf))))
                      (combine columns schema) then fail
      else if existsb (fun c => negb (array_len c =? row_count)%nat) columns then fail
      else Ok (MkRecordBatch schema columns row_count)
  end.

(** [i32::MAX]: a [StringArray] stores its value offsets as [i32]. *)
Definition i32_max : N := 2 ^ 31 - 1.

(** The number of bytes of the values of a string column (strings are
    byte strings here). *)
Definition value_bytes (vs : list (option string)) : N :=
  fold_right (fun o acc => match o with Some s => N.of_nat (String.length s) | None => 0 end + acc)
    0 vs.

(** [collect()] into a [StringArray]: the builder appends each value and
    records the end offset as an [i32] with [expect("byte array offset
    overflow")], so it panics once the values appended so far hold more
    than [i32::MAX] bytes. The collects into the numeric arrays cannot
    fail. *)
Definition collect_string_array (vs : list (option string)) : Result ArrayRef :=
  if value_bytes vs <=? i32_max then Ok (StringArray vs)
  else Err (Panic "byte array offset overflow").

(** [entries_to_record_batch]: the columns are collected in the source's
    order, then checked by [RecordBatch::try_new]. *)
Definition entries_to_record_batch (entries : list FileEntry) : Result RecordBatch :=
  paths ← collect_string_array (map (fun e => Some (path e)) entries);
  file_types ← collect_string_array (map (fun e => Some (file_type e)) entries);
  parent_paths ← collect_string_array (map (fun e => Some (parent_path e)) entries);
  top_level_dirs ← collect_string_array (map (fun e => Some (top_level_dir e)) entries);
  record_batch_try_new create_schema
    [paths;
     UInt64Array (map (fun e => Some (size e)) entries);
     Int64Array (map (fun e => Some (modified_time e)) entries);
     Int64Array (map (fun e => Some (accessed_time e)) entries);
     Int64Array (map (fun e => created_time e) entries);
     file_types;
     UInt64Array (map (fun e => Some (inode e)) entries);
     UInt32Array (map (fun e => Some (permissions e)) entries);
     parent_paths;
     UInt32Array (map (fun e => Some (depth e)) entries);
     top_level_dirs].

End Arrow.

(** ** Chunk discovery of the [aggregate] command ([main.rs]) *)

Module Aggregate.

(** [str::contains] for a [&str] pattern. *)
Fixpoint contains (s pat : string) : bool :=
  match s with
  | EmptyString => String.prefix pat s
  | String _ s' => String.prefix pat s || contains s' pat
  end.

(** [str::starts_with] and [str::ends_with]. *)
Definition starts_with (s pat : string) : bool := String.prefix pat s.

Definition ends_with (s suf : string) : bool :=
  (String.length suf <=? String.length s)%nat
  && String.eqb (String.substring (String.length s - String.length suf) (String.length suf) s) suf.

(** The file-name test of [find_chunk_files] when the input is a
    directory. *)
Definition dir_chunk_filter (name : string) : bool :=
  ends_with name ".parquet" && (contains name "chunk" || contains name "_")
  && negb (contains name "manifest").

(** The file-name test of [find_chunk_files] when the input path does not
    exist: [base_name] is the input's [file_stem]. *)
Definition stem_chunk_filter (base_name name : string) : bool :=
  starts_with name base_name && ends_with name ".parquet" && contains name "chunk"
  && negb (contains name "manifest").

End Aggregate.

(** ** Concrete inputs used by the examples below *)

Module Fixtures.
Import Models Manifest Writer.

(** An entry under top-level directory [d], as the crate's tests build them. *)
Definition sample_entry (p d : string) : FileEntry :=
  {| path := p; size := 1024; modified_time := 1700000000; accessed_time := 1700000000;
     created_time := Some 1700000000%Z; file_type := "txt"; inode := 12345;
     permissions := 420; parent_path := "/parent"; depth := 1; top_level_dir := d |}.

(** A world in which every I/O call succeeds, at monotonic time [t]. *)
Definition ok_env (t : N) : Env :=
  {| now_instant := t; check_instant := t; reopen_instant := t; now_unix := 1700000000; chunk_file_size := 4096;
     create_ok := true; write_ok := true; close_ok := true; save_ok := true |}.

Definition sample_config (rpc : N) : RotatingWriterConfig :=
  {| base_output_path := "/out/scan.parquet"; rows_per_chunk := rpc;
     time_interval := 300 * 10 ^ 9 |}.

(** Metadata of a regular file whose timestamps are all readable, except
    possibly the creation time. *)
Definition file_metadata (created : option Z) : Metadata :=
  {| md_is_dir := false; md_len := 12; md_modified := Some 1700000000000000000%Z;
     md_accessed := Some 1700000000000000000%Z; md_created := created;
     md_ino := 7; md_mode := 420 |}.

(** A world in which every I/O call succeeds, where the clock reads [t]
    before the write and [t + d] after it. *)
Definition slow_write_env (t d : N) : Env :=
  {| now_instant := t; check_instant := t + d; reopen_instant := t + d;
     now_unix := 1700000000; chunk_file_size := 4096;
     create_ok := true; write_ok := true; close_ok := true; save_ok := true |}.

(** The writer [RotatingParquetWriter::new] returns at time 0. *)
Definition fresh_writer (rpc : N) : RotatingParquetWriter :=
  MkWriter (sample_config rpc) None 0 0 0 (Manifest.new "/r" 1700000000) None [].

End Fixtures.

(** ** Properties *)

Import Paths Models Scanner Manifest Writer Fixtures.
Import Aggregate Arrow.

Definition homogeneous (b : list FileEntry) : Prop :=
  forall e1 e2, In e1 b -> In e2 b -> top_level_dir e1 = top_level_dir e2.

(** Crash atomicity of a sequence of file operations for [dest]: after any
    prefix of it, [dest] holds either its old or its final content. *)
Definition crash_atomic (fs : gmap string string) (ops : list FsOp) (dest : string) : Prop :=
  forall k, apply_ops fs (take k ops) !! dest = fs !! dest
            \/ apply_ops fs (take k ops) !! dest = apply_ops fs ops !! dest.

Definition sum_rows (cs : list ChunkMetadata) : N :=
  fold_right (fun c acc => row_count c + acc) 0 cs.

Definition manifest_inv (m : ScanManifest) : Prop :=
  total_rows m = sum_rows (chunks m) /\ chunk_count m = N.of_nat (length (chunks m)).

(** The manifests the program can hold: fresh ones, the results of its
    mutating operations (as long as the [u64]/[usize] counters do not wrap),
    and a saved manifest reloaded by [resume]. *)
Inductive manifest_reachable : ScanManifest -> Prop :=
| mr_new p t : manifest_reachable (Manifest.new p t)
| mr_add_chunk m md :
    manifest_reachable m ->
    total_rows m + row_count md < 2 ^ 64 -> chunk_count m + 1 < 2 ^ 64 ->
    manifest_reachable (add_chunk m md)
| mr_start_directory m d :
    manifest_reachable m -> manifest_reachable (start_directory m d)
| mr_complete_current_directory m :
    manifest_reachable m -> manifest_reachable (complete_current_directory m)
| mr_complete m t : manifest_reachable m -> manifest_reachable (complete m t)
| mr_resume m : manifest_reachable m -> manifest_reachable (reset_for_resume m).

Definition timestamp_ok (t : option Z) : bool :=
  match t with Some x => (0 <=? x)%Z | None => false end.

Definition count_error (c : Counters) : Counters :=
  {| files := files c; dirs := dirs c; bytes := bytes c;
     errors := u64_wrap (errors c + 1); skipped := skipped c |}.

(** The writer's directory tracking and the manifest agree. *)
Definition dirs_in_sync (w : RotatingParquetWriter) : Prop :=
  match last_top_level_dir w with
  | Some d => current_top_level_dir (manifest w) = Some d
  | None => True
  end.

(** The open chunk's row counter agrees with its Parquet writer, and the
    chunk is either still empty (just opened by [rotate]) or below the
    rotation threshold. *)
Definition chunk_rows_ok (w : RotatingParquetWriter) : Prop :=
  match current_writer w with
  | Some pw => rows_written pw = current_chunk_rows w /\
               (current_chunk_rows w = 0 \/ current_chunk_rows w < rows_per_chunk (config w))
  | None => True
  end.

Definition only_opens (evs : list Event) : Prop :=
  Forall (fun ev => match ev with EvOpen _ _ => True | _ => False end) evs.

Definition no_saves (evs : list Event) : Prop :=
  Forall (fun ev => match ev with EvSave _ _ => False | _ => True end) evs.

(** Events that are neither a write of rows nor the close of a chunk. *)
Definition bookkeeping (evs : list Event) : Prop :=
  Forall (fun ev => match ev with EvWrite _ _ | EvClose _ _ => False | _ => True end) evs.

(** *** Definitions for the properties of the other functions *)

(** Each string column of a batch of [entries] fits in [i32] offsets. *)
Definition string_columns_fit (entries : list FileEntry) : bool :=
  (value_bytes (map (fun e => Some (path e)) entries) <=? i32_max)
  && (value_bytes (map (fun e => Some (file_type e)) entries) <=? i32_max)
  && (value_bytes (map (fun e => Some (parent_path e)) entries) <=? i32_max)
  && (value_bytes (map (fun e => Some (top_level_dir e)) entries) <=? i32_max).

(** The number a string of decimal digits denotes, read left to right. *)
Definition digit_value (c : ascii) : N := N_of_ascii c - 48.

Definition dec_step (acc : N) (c : ascii) : N := acc * 10 + digit_value c.

Definition dec_value (s : string) : N := fold_left dec_step (list_ascii_of_string s) 0.

Definition is_digit (c : ascii) : bool := (48 <=? N_of_ascii c) && (N_of_ascii c <=? 57).

Definition not_comma (c : ascii) : bool := negb (Ascii.eqb c ","%char).

(** A string with its thousands separators removed. *)
Definition strip_commas (s : string) : string :=
  string_of_list_ascii (List.filter not_comma (list_ascii_of_string s)).

(** The number of entries in a sequence of received batches. *)
Fixpoint steps_rows (steps : list (Env * list FileEntry)) : N :=
  match steps with [] => 0 | (_, b) :: rest => N.of_nat (length b) + steps_rows rest end.

(** Rows written to the open chunk, not yet recorded in the manifest. *)
Definition pending (w : RotatingParquetWriter) : N :=
  match current_writer w with Some pw => rows_written pw | None => 0 end.

Definition rows_accounted (w : RotatingParquetWriter) : N :=
  (total_rows (manifest w) + pending w) mod 2 ^ 64.

(** The chunk files opened in an I/O log, with their numbers. *)
Fixpoint opened (evs : list Event) : list (N * string) :=
  match evs with
  | [] => []
  | EvOpen k p :: rest => (k, p) :: opened rest
  | _ :: rest => opened rest
  end.

(** [d] increments of a chunk number, and the numbers they pass through. *)
Fixpoint advance (c : N) (d : nat) : N :=
  match d with O => c | S d' => advance (u64_wrap (c + 1)) d' end.

Fixpoint succs (c : N) (d : nat) : list N :=
  match d with O => [] | S d' => u64_wrap (c + 1) :: succs (u64_wrap (c + 1)) d' end.

(** From [w] to [w'] the writer opened the next [d] chunks, each at its
    chunk path, and nothing else changed its chunk number or config. *)
Definition opens_step (w w' : RotatingParquetWriter) (d : nat) : Prop :=
  config w' = config w /\ current_chunk w' = advance (current_chunk w) d /\
  exists evs, io_log w' = io_log w ++ evs /\ map fst (opened evs) = succs (current_chunk w) d /\
    Forall (fun kp => get_chunk_path (config w) kp.1 = Ok kp.2) (opened evs).

Definition wsteps : list (Env * list FileEntry) :=
  [(ok_env 1, [sample_entry "/r/A/x" "A"; sample_entry "/r/A/y" "A"; sample_entry "/r/A/z" "A"]);
   (ok_env 2, [sample_entry "/r/B/x" "B"])].

(** Walker items accounted for by the counters of [scan_parallel]. *)
Definition counted (c : Counters) : N := files c + dirs c + errors c + skipped c.

Definition zero_counters : Counters :=
  {| files := 0; dirs := 0; bytes := 0; errors := 0; skipped := 0 |}.

Definition witems : list WalkItem :=
  [WalkOk "/r/A/x.txt" (Some (file_metadata None)); WalkErr;
   WalkOk "/r/B/y.txt" (Some (file_metadata None)); WalkOk "/r/C" None].

Definition no_slash (s : string) : bool :=
  forallb (fun c => negb (Ascii.eqb c "/"%char)) (list_ascii_of_string s).

(** A path segment written between two separators: non-empty, neither [.]
    nor [..], and without [/]. *)
Definition good_seg (s : string) : bool :=
  no_slash s && negb (String.eqb s "") && negb (String.eqb s ".") && negb (String.eqb s "..").

Definition no_underscore (s : string) : bool :=
  forallb (fun c => negb (Ascii.eqb c "_"%char)) (list_ascii_of_string s).

(** *** Lemmas *)

Lemma batch_loop_spec (bs : nat) :
  (1 <= bs)%nat ->
  forall input batch, (length batch < bs)%nat ->
  (forall b, In b (batch_loop bs batch input) -> (1 <= length b <= bs)%nat) /\
  concat (batch_loop bs batch input) = batch ++ input.
Proof.
  intros Hbs input. induction input as [|e rest IH]; intros batch Hlt; simpl.
  - destruct batch as [|x xs]; simpl.
    + split; [intros b []|reflexivity].
    + split.
      * intros b [<-|[]]. simpl in *. lia.
      * rewrite app_nil_r. reflexivity.
  - destruct (Nat.leb_spec bs (length (batch ++ [e]))) as [Hge|Hlt'].
    + destruct (IH [] ltac:(simpl; lia)) as [H1 H2]. split.
      * intros b [<-|Hb]; [|auto].
        rewrite length_app in *. simpl in *. lia.
      * simpl. rewrite H2. simpl. rewrite <- app_assoc. reflexivity.
    + destruct (IH (batch ++ [e]) Hlt') as [H1 H2]. split; [exact H1|].
      rewrite H2, <- app_assoc. reflexivity.
Qed.

Lemma batch_loop_full (bs : nat) (input : list FileEntry) :
  forall batch, (length batch < Nat.max 1 bs)%nat ->
  Forall (fun b => length b = Nat.max 1 bs) (removelast (batch_loop bs batch input)).
Proof.
  induction input as [|e rest IH]; intros batch Hlt; simpl.
  - destruct batch; constructor.
  - destruct (Nat.leb_spec bs (length (batch ++ [e]))) as [Hge|Hlt'].
    + pose proof (IH [] ltac:(simpl; lia)) as H.
      destruct (batch_loop bs [] rest) as [|b l]; [constructor|].
      constructor; [rewrite length_app in *; simpl in *; lia|exact H].
    + apply IH. lia.
Qed.

Lemma sum_rows_app (cs : list ChunkMetadata) (md : ChunkMetadata) :
  sum_rows (cs ++ [md]) = sum_rows cs + row_count md.
Proof.
  induction cs as [|c cs IH]; simpl; [lia|]. rewrite IH. lia.
Qed.

Lemma manifest_inv_add_chunk (m : ScanManifest) (md : ChunkMetadata) :
  manifest_inv m -> total_rows m + row_count md < 2 ^ 64 -> chunk_count m + 1 < 2 ^ 64 ->
  manifest_inv (add_chunk m md).
Proof.
  intros [Ht Hc] Hrt Hcc. unfold manifest_inv, add_chunk, u64_wrap; simpl.
  rewrite !N.mod_small by assumption. split.
  - rewrite sum_rows_app. lia.
  - rewrite length_app. simpl. lia.
Qed.

(** Reducing the [Result] monad. *)
Lemma bind_ok {A B} (a : A) (k : A -> Result B) : (Ok a ≫= k) = k a.
Proof. reflexivity. Qed.

Lemma bind_err {A B} (e : Error) (k : A -> Result B) : (Err e ≫= k) = Err e.
Proof. reflexivity. Qed.

Lemma bind_ok_inv {A B} (m : Result A) (k : A -> Result B) (b : B) :
  (m ≫= k) = Ok b -> exists a, m = Ok a /\ k a = Ok b.
Proof. destruct m as [a|e]; simpl; [eauto|discriminate]. Qed.

(** *** C1: the batching thread *)

(** C1 (as stated, refuted): batches are homogeneous in [top_level_dir].
    With [batch_size = 2], two records from directories [A] and [B] that
    arrive one after the other are sent in one batch: the batching thread
    only flushes on size, never on a change of [top_level_dir]. *)
Lemma batcher_mixes_top_level_dirs :
  ~ (forall b, In b (batcher 2 [sample_entry "/r/A/x" "A"; sample_entry "/r/B/y" "B"]) ->
               homogeneous b).
Proof.
  intros H.
  assert (Hd := H _ (or_introl eq_refl) (sample_entry "/r/A/x" "A") (sample_entry "/r/B/y" "B")
                  (or_introl eq_refl) (or_intror (or_introl eq_refl))).
  discriminate Hd.
Qed.

(** C1 (amended): for [batch_size >= 1] the batching thread flushes only
    on size. Every batch it sends holds between 1 and [batch_size]
    records; every batch but the last holds exactly [batch_size] (the
    buffer is sent as soon as it is full, whatever the records'
    [top_level_dir]); and the batches, in order, are exactly the records
    received, in order. *)
Theorem batcher_batches_bounded (batch_size : nat) (input : list FileEntry) :
  (1 <= batch_size)%nat ->
  (forall b, In b (batcher batch_size input) -> (1 <= length b <= batch_size)%nat) /\
  Forall (fun b => length b = batch_size) (removelast (batcher batch_size input)) /\
  concat (batcher batch_size input) = input.
Proof.
  intros Hbs.
  destruct (batch_loop_spec batch_size Hbs input [] ltac:(simpl; lia)) as [H1 H2].
  split; [exact H1|]. split; [|exact H2].
  pose proof (batch_loop_full batch_size input [] ltac:(simpl; lia)) as H3.
  rewrite Nat.max_r in H3 by exact Hbs. exact H3.
Qed.

Lemma batcher_batches_bounded_witness :
  (1 <= 2)%nat /\
  ((forall b, In b (batcher 2 [sample_entry "/r/A/x" "A"; sample_entry "/r/B/y" "B";
                              sample_entry "/r/B/z" "B"]) -> (1 <= length b <= 2)%nat) /\
   Forall (fun b => length b = 2%nat)
     (removelast (batcher 2 [sample_entry "/r/A/x" "A"; sample_entry "/r/B/y" "B";
                             sample_entry "/r/B/z" "B"])) /\
   concat (batcher 2 [sample_entry "/r/A/x" "A"; sample_entry "/r/B/y" "B";
                      sample_entry "/r/B/z" "B"])
   = [sample_entry "/r/A/x" "A"; sample_entry "/r/B/y" "B"; sample_entry "/r/B/z" "B"]).
Proof.
  split; [lia|]. apply (batcher_batches_bounded 2). lia.
Defined.

(** *** C4: persisting the manifest *)

(** C4 (as stated, refuted): saving is crash-atomic. [save_to_file] truncates
    the destination before writing: a crash right after [File::create]
    leaves an empty manifest, which is neither the old nor the new one. *)
Lemma save_to_file_not_crash_atomic :
  ~ crash_atomic {[ "/out/scan_manifest.json" := "{old}" ]}%string
      (save_to_file "{new}" "/out/scan_manifest.json") "/out/scan_manifest.json".
Proof.
  intros H. destruct (H 1%nat) as [Hk|Hk]; vm_compute in Hk; discriminate Hk.
Qed.

(** C4 (amended): [save_to_file] writes the destination in place: it
    creates (truncating) the destination, which then holds the empty string,
    and writes the JSON through that handle; no temporary file and no rename
    is involved. *)
Theorem save_to_file_in_place (json p : string) (fs : gmap string string) :
  save_to_file json p = [FsCreate p; FsWrite p json] /\
  apply_ops fs (take 1 (save_to_file json p)) = <[p := ""%string]> fs /\
  apply_ops fs (save_to_file json p) = <[p := json]> fs /\
  Forall (fun op => match op with FsRename _ _ => False | _ => True end) (save_to_file json p).
Proof.
  split; [reflexivity|]. split; [reflexivity|]. split.
  - unfold apply_ops, save_to_file. simpl.
    rewrite lookup_insert_eq. simpl. rewrite insert_insert_eq. reflexivity.
  - repeat constructor.
Qed.

(** *** C7: the manifest's counters *)

(** C7: every manifest the program can hold satisfies
    [total_rows = Σ chunks[i].row_count] and [chunk_count = len(chunks)]:
    the invariant holds for [ScanManifest::new] and is kept by [add_chunk],
    [start_directory], [complete_current_directory], [complete] and the
    reset [resume] applies to a reloaded manifest. *)
Theorem manifest_counters_consistent (m : ScanManifest) :
  manifest_reachable m -> manifest_inv m.
Proof.
  induction 1 as [p t|m md Hr IH Hrt Hcc|m d Hr IH|m Hr IH|m t Hr IH|m Hr IH].
  - split; reflexivity.
  - apply manifest_inv_add_chunk; assumption.
  - exact IH.
  - unfold complete_current_directory. destruct (current_top_level_dir m); exact IH.
  - exact IH.
  - exact IH.
Qed.

Lemma manifest_counters_consistent_witness :
  manifest_reachable
    (reset_for_resume
       (add_chunk (Manifest.new "/test" 0)
          {| chunk_number := 0; file_path := "/tmp/chunk_0.parquet"; row_count := 1000;
             file_size := 50000; created_at := 1700000000 |})) /\
  manifest_inv
    (reset_for_resume
       (add_chunk (Manifest.new "/test" 0)
          {| chunk_number := 0; file_path := "/tmp/chunk_0.parquet"; row_count := 1000;
             file_size := 50000; created_at := 1700000000 |})).
Proof.
  assert (Hr : manifest_reachable
    (reset_for_resume
       (add_chunk (Manifest.new "/test" 0)
          {| chunk_number := 0; file_path := "/tmp/chunk_0.parquet"; row_count := 1000;
             file_size := 50000; created_at := 1700000000 |}))).
  { apply mr_resume. apply mr_add_chunk; [apply mr_new | simpl; lia | simpl; lia]. }
  split; [exact Hr|]. apply (manifest_counters_consistent _ Hr).
Defined.

(** *** C10: empty batches *)

(** C10: writing an empty batch succeeds and changes nothing, for the
    rotating writer (no chunk opened, no rotation, same counters, manifest,
    directory tracking and I/O log) and for [ParquetFileWriter]. *)
Theorem write_batch_empty_noop (env : Env) (w : RotatingParquetWriter) (pw : ParquetFileWriter) :
  write_batch env w [] = Ok w /\ pw_write_batch env pw [] = Ok pw.
Proof. split; reflexivity. Qed.

(** *** C8: the [file_type] column *)

Lemma last_component_in (cs : list Component) (c : Component) :
  last_component cs = Some c -> In c cs.
Proof.
  induction cs as [|x cs IH]; simpl; [discriminate|].
  destruct cs as [|y cs']; [intros [= ->]; left; reflexivity|].
  intros H. right. apply IH. exact H.
Qed.

Lemma body_components_normal (segs : list string) (s : string) :
  In (Normal s) (body_components segs) -> s <> ".."%string.
Proof.
  induction segs as [|x segs IH]; simpl; [intros []|].
  destruct (String.eqb_spec x ""); [exact IH|].
  destruct (String.eqb_spec x "."); [exact IH|].
  destruct (String.eqb_spec x ".."); simpl.
  - intros [H|H]; [discriminate H|exact (IH H)].
  - intros [H|H]; [injection H as <-; assumption|exact (IH H)].
Qed.

Lemma file_name_not_parent (p f : string) : file_name p = Some f -> f <> ".."%string.
Proof.
  unfold file_name. destruct (last_component (components p)) as [c|] eqn:E; [|discriminate].
  destruct c as [| | |s]; try discriminate. intros [= <-].
  apply last_component_in in E. revert E. unfold components.
  destruct p as [|ch rest]; [intros []|].
  destruct (Ascii.eqb ch "/"%char).
  - intros [H|H]; [discriminate H|]. exact (body_components_normal _ _ H).
  - destruct (split_slash (String ch rest)) as [|x xs]; [intros []|].
    destruct (String.eqb x "."%string).
    + intros [H|H]; [discriminate H|]. exact (body_components_normal _ _ H).
    + apply body_components_normal.
Qed.

Lemma rsplit_dot_last (b x : string) :
  rsplit_dot x = None -> rsplit_dot (b +:+ "." +:+ x)%string = Some (b, x).
Proof.
  intros Hx. induction b as [|c b IH]; simpl.
  - cbv [String.append]. rewrite Hx. reflexivity.
  - rewrite IH. reflexivity.
Qed.

(** C8 (as stated, refuted): the extension is lowercased. For the file
    [/r/A/REPORT.TXT] the entry's [file_type] is ["TXT"], not ["txt"]:
    [from_path] keeps the extension as written. *)
Lemma file_type_keeps_case :
  exists e, from_path "/r/A/REPORT.TXT" (file_metadata None) "/r" = Ok e /\
            file_type e = "TXT"%string /\ file_type e <> "txt"%string.
Proof.
  eexists. split; [reflexivity|]. split; [reflexivity|discriminate].
Qed.

(** C8 (amended): for every entry built by [from_path]: a directory has
    [file_type = "directory"]; a non-directory whose file name is [b.x],
    with [b] non-empty and no dot in [x], has [file_type = x] exactly as
    written (no case change); a non-directory without an extension has
    [file_type = "no_extension"]. *)
Theorem from_path_file_type (p : string) (md : Metadata) (root : string) (e : FileEntry) :
  from_path p md root = Ok e ->
  (md_is_dir md = true -> file_type e = "directory"%string) /\
  (md_is_dir md = false -> forall f b x, file_name p = Some f -> f = (b +:+ "." +:+ x)%string ->
     b <> ""%string -> rsplit_dot x = None -> file_type e = x) /\
  (md_is_dir md = false -> extension p = None -> file_type e = "no_extension"%string).
Proof.
  intros H.
  assert (Hft : file_type e = entry_file_type p md).
  { unfold from_path in H.
    destruct (md_modified md) as [tm|]; simpl in H; [|discriminate H].
    unfold duration_since_epoch in H. destruct (0 <=? tm)%Z; simpl in H; [|discriminate H].
    destruct (md_accessed md) as [ta|]; simpl in H; [|discriminate H].
    unfold duration_since_epoch in H. destruct (0 <=? ta)%Z; simpl in H; [|discriminate H].
    injection H as <-. reflexivity. }
  rewrite Hft. unfold entry_file_type. split; [|split].
  - intros ->. reflexivity.
  - intros Hd f b x Hf -> Hb Hx. rewrite Hd. unfold extension. rewrite Hf.
    unfold rsplit_file_at_dot.
    destruct (String.eqb_spec (b +:+ "." +:+ x) "..")%string as [Hpp|_].
    { exfalso. exact (file_name_not_parent p _ Hf Hpp). }
    rewrite (rsplit_dot_last b x Hx).
    destruct (String.eqb_spec b ""); [contradiction|reflexivity].
  - intros Hd Hx. rewrite Hd, Hx. reflexivity.
Qed.

Lemma from_path_file_type_witness :
  from_path "/r/A/REPORT.TXT" (file_metadata None) "/r" = Ok
    {| path := "/r/A/REPORT.TXT"; size := 12; modified_time := 1700000000;
       accessed_time := 1700000000; created_time := None; file_type := "TXT";
       inode := 7; permissions := 420; parent_path := "/r/A"; depth := 2;
       top_level_dir := "A" |} /\
  file_type {| path := "/r/A/REPORT.TXT"; size := 12; modified_time := 1700000000;
       accessed_time := 1700000000; created_time := None; file_type := "TXT";
       inode := 7; permissions := 420; parent_path := "/r/A"; depth := 2;
       top_level_dir := "A" |} = "TXT"%string.
Proof.
  assert (H : from_path "/r/A/REPORT.TXT" (file_metadata None) "/r" = Ok
    {| path := "/r/A/REPORT.TXT"; size := 12; modified_time := 1700000000;
       accessed_time := 1700000000; created_time := None; file_type := "TXT";
       inode := 7; permissions := 420; parent_path := "/r/A"; depth := 2;
       top_level_dir := "A" |}) by reflexivity.
  split; [exact H|].
  destruct (from_path_file_type _ _ _ _ H) as [_ [Hx _]].
  apply (Hx eq_refl "REPORT.TXT" "REPORT" "TXT");
    [reflexivity | reflexivity | discriminate | reflexivity].
Defined.

(** *** C9: timestamps *)

(** C9 (as stated, refuted): entry construction fails when the creation
    time cannot be converted to seconds since the Unix epoch. A file whose
    creation time the platform reports as one day before the epoch is
    built without error: [duration_since(UNIX_EPOCH)] fails, the [.ok()]
    drops that failure, [from_path] succeeds and [created_time] is [None]. *)
Lemma from_path_ok_created_before_epoch :
  md_created (file_metadata (Some (-86400000000000)%Z)) = Some (-86400000000000)%Z /\
  duration_since_epoch (-86400000000000)%Z = Err TimeError /\
  exists e, from_path "/r/A/x.txt" (file_metadata (Some (-86400000000000)%Z)) "/r" = Ok e /\
            created_time e = None.
Proof.
  split; [reflexivity|]. split; [reflexivity|]. eexists. split; reflexivity.
Qed.

(** C9 (amended): [from_path] fails exactly when the modified or the
    accessed time cannot be read or lies before the Unix epoch; the
    creation time never makes it fail: [created_time] is [None] when it
    cannot be read or lies before the epoch. When construction fails, the
    scanner counts one error and sends nothing for that entry. *)
Theorem from_path_timestamps (p : string) (md : Metadata) (root : string)
    (skip : option (gset string)) (c : Counters) :
  match from_path p md root with
  | Ok e =>
      timestamp_ok (md_modified md) && timestamp_ok (md_accessed md) = true /\
      created_time e = created_secs (md_created md)
  | Err _ =>
      timestamp_ok (md_modified md) && timestamp_ok (md_accessed md) = false /\
      process_entry root skip c (WalkOk p (Some md)) = (count_error c, None)
  end.
Proof.
  destruct (from_path p md root) as [e|er] eqn:E.
  - unfold from_path in E.
    destruct (md_modified md) as [tm|]; simpl in E; [|discriminate E].
    unfold duration_since_epoch in E.
    destruct (0 <=? tm)%Z eqn:Hm; simpl in E; [|discriminate E].
    destruct (md_accessed md) as [ta|]; simpl in E; [|discriminate E].
    unfold duration_since_epoch in E.
    destruct (0 <=? ta)%Z eqn:Ha; simpl in E; [|discriminate E].
    injection E as <-. simpl. rewrite Hm, Ha. split; reflexivity.
  - split.
    + unfold from_path in E.
      destruct (md_modified md) as [tm|]; simpl in E; [|reflexivity].
      unfold duration_since_epoch in E.
      destruct (0 <=? tm)%Z eqn:Hm; simpl in E; [|simpl; rewrite Hm; reflexivity].
      destruct (md_accessed md) as [ta|]; simpl in E; [|simpl; rewrite Hm; reflexivity].
      destruct (0 <=? ta)%Z eqn:Ha; simpl in E; [discriminate E|].
      simpl. rewrite Hm, Ha. reflexivity.
    + simpl. rewrite E. reflexivity.
Qed.

(** *** The rotating writer, step by step *)

Ltac inv_bind H :=
  match type of H with
  | (?m ≫= _) = Ok _ =>
      let a := fresh "a" in let Ha := fresh "Ha" in let H' := fresh "H" in
      destruct (bind_ok_inv _ _ _ H) as [a [Ha H']]; clear H; rename H' into H
  end.

Lemma pw_new_ok (env : Env) (p : string) (pw : ParquetFileWriter) :
  pw_new env p = Ok pw -> pw = {| pw_path := p; rows_written := 0 |}.
Proof. unfold pw_new. destruct (create_ok env); [intros [= <-]; reflexivity|discriminate]. Qed.

Lemma rotate_spec (env : Env) (t : N) (w w' : RotatingParquetWriter) :
  rotate env t w = Ok w' ->
  exists p,
    config w' = config w /\
    current_writer w' = Some {| pw_path := p; rows_written := 0 |} /\
    current_chunk_rows w' = 0 /\
    last_rotation w' = t /\
    last_top_level_dir w' = last_top_level_dir w /\
    match current_writer w with
    | None =>
        current_chunk w' = u64_wrap (current_chunk w + 1) /\
        manifest w' = manifest w /\
        io_log w' = io_log w ++ [EvOpen (current_chunk w') p]
    | Some pw =>
        exists p0 q,
        current_chunk w' = u64_wrap (current_chunk w + 1) /\
        manifest w' = add_chunk (manifest w)
          {| chunk_number := current_chunk w; file_path := p0; row_count := rows_written pw;
             file_size := chunk_file_size env; created_at := now_unix env |} /\
        io_log w' = io_log w ++ [EvClose (current_chunk w) (rows_written pw)]
                    ++ save_event env q (manifest w') ++ [EvOpen (current_chunk w') p]
    end.
Proof.
  unfold rotate. intros H.
  destruct (current_writer w) as [pw|] eqn:Hcw.
  - inv_bind H. unfold close_chunk in Ha.
    inv_bind Ha. inv_bind Ha. inv_bind Ha. simpl in Ha. injection Ha as <-.
    simpl in H. inv_bind H. inv_bind H. simpl in H. injection H as <-.
    apply pw_new_ok in Ha3 as ->.
    exists a. simpl. repeat split; try reflexivity.
    exists a1, a2. rewrite <- !app_assoc. repeat split; reflexivity.
  - simpl in H. inv_bind H. inv_bind H. simpl in H. injection H as <-.
    apply pw_new_ok in Ha0 as ->.
    exists a. simpl. repeat split; reflexivity.
Qed.

Lemma rotate_keeps_dirs (env : Env) (t : N) (w w' : RotatingParquetWriter) :
  rotate env t w = Ok w' ->
  last_top_level_dir w' = last_top_level_dir w /\
  current_top_level_dir (manifest w') = current_top_level_dir (manifest w) /\
  completed_top_level_dirs (manifest w') = completed_top_level_dirs (manifest w) /\
  exists evs, io_log w' = io_log w ++ evs.
Proof.
  intros H. destruct (rotate_spec env t w w' H) as (p & _ & _ & _ & _ & Hl & Hc).
  split; [exact Hl|].
  destruct (current_writer w) as [pw|].
  - destruct Hc as (p0 & q & _ & -> & ->). simpl. repeat split.
    eexists. reflexivity.
  - destruct Hc as (_ & -> & ->). repeat split. eexists. reflexivity.
Qed.

Lemma track_directory_spec (env : Env) (w w1 : RotatingParquetWriter) (d : string) :
  dirs_in_sync w ->
  track_directory env w d = Ok w1 ->
  config w1 = config w /\ current_writer w1 = current_writer w /\
  current_chunk w1 = current_chunk w /\ current_chunk_rows w1 = current_chunk_rows w /\
  last_rotation w1 = last_rotation w /\ last_top_level_dir w1 = Some d /\
  current_top_level_dir (manifest w1) = Some d /\
  match last_top_level_dir w with
  | None => manifest w1 = start_directory (manifest w) d /\ io_log w1 = io_log w
  | Some d_prev =>
      if String.eqb d_prev d then manifest w1 = manifest w /\ io_log w1 = io_log w
      else manifest w1 = start_directory (complete_current_directory (manifest w)) d /\
           exists q, io_log w1 = io_log w ++ save_event env q (manifest w1)
  end.
Proof.
  unfold dirs_in_sync, track_directory. intros Hs H.
  destruct (last_top_level_dir w) as [d_prev|] eqn:Hl.
  - destruct (String.eqb_spec d_prev d) as [<-|Hne].
    + injection H as <-. simpl. repeat split; assumption || reflexivity.
    + inv_bind H. injection H as <-. simpl. repeat split; try reflexivity.
      eexists. reflexivity.
  - injection H as <-. simpl. repeat split; reflexivity.
Qed.

Lemma write_current_spec (env : Env) (w w' : RotatingParquetWriter) (pw : ParquetFileWriter)
    (e : FileEntry) (rest : list FileEntry) :
  current_writer w = Some pw ->
  write_current env w (e :: rest) = Ok w' ->
  config w' = config w /\ current_chunk w' = current_chunk w /\
  current_writer w' = Some {| pw_path := pw_path pw;
                              rows_written := u64_wrap (rows_written pw + N.of_nat (length (e :: rest))) |} /\
  current_chunk_rows w' = u64_wrap (current_chunk_rows w + N.of_nat (length (e :: rest))) /\
  last_rotation w' = last_rotation w /\ manifest w' = manifest w /\
  last_top_level_dir w' = last_top_level_dir w /\
  io_log w' = io_log w ++ [EvWrite (current_chunk w) (N.of_nat (length (e :: rest)))].
Proof.
  unfold write_current. intros Hcw H. rewrite Hcw in H.
  inv_bind H. unfold pw_write_batch in Ha.
  destruct (write_ok env); [|discriminate Ha]. injection Ha as <-.
  injection H as <-. simpl. repeat split; reflexivity.
Qed.

Lemma write_batch_decomp (env : Env) (w w' : RotatingParquetWriter) (e : FileEntry)
    (rest : list FileEntry) :
  write_batch env w (e :: rest) = Ok w' ->
  exists w1 w2 w3,
    track_directory env w (top_level_dir e) = Ok w1 /\
    (match current_writer w1 with None => rotate env (now_instant env) w1 | Some _ => Ok w1 end) = Ok w2 /\
    write_current env w2 (e :: rest) = Ok w3 /\
    (if should_rotate env w3 then rotate env (reopen_instant env) w3 else Ok w3) = Ok w'.
Proof.
  simpl. intros H. inv_bind H. inv_bind H. inv_bind H.
  exists a, a0, a1. repeat split; assumption.
Qed.

(** After the directory tracking, a chunk is open: the one already open,
    or a new one opened by [rotate]. *)
Lemma ensure_writer_spec (env : Env) (w1 w2 : RotatingParquetWriter) :
  (match current_writer w1 with None => rotate env (now_instant env) w1 | Some _ => Ok w1 end) = Ok w2 ->
  exists pw opening,
    current_writer w2 = Some pw /\ io_log w2 = io_log w1 ++ opening /\ only_opens opening /\
    last_top_level_dir w2 = last_top_level_dir w1 /\ manifest w2 = manifest w1 /\
    config w2 = config w1 /\
    match current_writer w1 with
    | None => current_chunk w2 = u64_wrap (current_chunk w1 + 1) /\ rows_written pw = 0 /\
              current_chunk_rows w2 = 0 /\ last_rotation w2 = now_instant env
    | Some _ => w2 = w1
    end.
Proof.
  destruct (current_writer w1) as [pw1|] eqn:Hcw.
  - intros [= <-]. exists pw1, []. rewrite app_nil_r. repeat split; try reflexivity.
    + exact Hcw.
    + constructor.
  - intros H. destruct (rotate_spec env _ w1 w2 H) as (p & Hc & Hw & Hr & Ht & Hl & Hm).
    rewrite Hcw in Hm. destruct Hm as (Hk & Hm & Hlog).
    exists {| pw_path := p; rows_written := 0 |}, [EvOpen (current_chunk w2) p].
    repeat split; try assumption. repeat constructor.
Qed.

Lemma track_directory_frame (env : Env) (w w1 : RotatingParquetWriter) (d : string) :
  track_directory env w d = Ok w1 ->
  config w1 = config w /\ current_writer w1 = current_writer w /\
  current_chunk w1 = current_chunk w /\ current_chunk_rows w1 = current_chunk_rows w /\
  last_rotation w1 = last_rotation w /\
  exists evs, io_log w1 = io_log w ++ evs /\ bookkeeping evs.
Proof.
  unfold track_directory. intros H.
  destruct (last_top_level_dir w) as [d_prev|].
  - destruct (String.eqb d_prev d).
    + injection H as <-. simpl. repeat split; try reflexivity.
      exists []. rewrite app_nil_r. split; [reflexivity|constructor].
    + inv_bind H. injection H as <-. simpl. repeat split; try reflexivity.
      eexists. split; [reflexivity|].
      unfold save_event. destruct (save_ok env); repeat constructor.
  - injection H as <-. simpl. repeat split; try reflexivity.
    exists []. rewrite app_nil_r. split; [reflexivity|constructor].
Qed.

(** *** C6: directory transitions in [write_batch] *)

(** C6 (as stated, refuted): when no directory is in progress, the first
    batch's directory is recorded and the manifest persisted. On a fresh
    writer the first batch sets [current_top_level_dir] but nothing is
    saved: the only saves happen on a transition and when a chunk closes. *)
Lemma write_batch_first_dir_not_saved :
  exists w w',
    Writer.new (sample_config 500000) "/r" (ok_env 0) = Ok w /\
    write_batch (ok_env 1) w [sample_entry "/r/A/x" "A"] = Ok w' /\
    current_top_level_dir (manifest w') = Some "A"%string /\
    no_saves (io_log w').
Proof.
  eexists. eexists. split; [reflexivity|]. split; [reflexivity|].
  split; [reflexivity|]. vm_compute. repeat constructor.
Qed.

(** C6 (amended): for a non-empty batch whose first entry has top-level
    directory [d], before the batch is written, [write_batch] compares [d]
    with the writer's [last_top_level_dir] (which starts as [None], also
    when resuming). If it is [None], it sets [current_top_level_dir = d]
    without persisting the manifest. If it is some [d_prev <> d], it moves
    [d_prev] into [completed_top_level_dirs], sets [current_top_level_dir =
    d], and persists the manifest (a failed save is only logged). If it
    equals [d], nothing changes. Afterwards, at most one chunk is opened
    and then the whole batch is written. *)
Theorem write_batch_tracks_directory (env : Env) (w w' : RotatingParquetWriter)
    (e : FileEntry) (rest : list FileEntry) :
  dirs_in_sync w ->
  write_batch env w (e :: rest) = Ok w' ->
  exists w1 opening k post,
    track_directory env w (top_level_dir e) = Ok w1 /\
    io_log w' = io_log w1 ++ opening ++ EvWrite k (N.of_nat (length (e :: rest))) :: post /\
    only_opens opening /\
    last_top_level_dir w' = Some (top_level_dir e) /\
    current_top_level_dir (manifest w') = Some (top_level_dir e) /\
    match last_top_level_dir w with
    | None =>
        completed_top_level_dirs (manifest w1) = completed_top_level_dirs (manifest w) /\
        io_log w1 = io_log w
    | Some d_prev =>
        if String.eqb d_prev (top_level_dir e)
        then manifest w1 = manifest w /\ io_log w1 = io_log w
        else completed_top_level_dirs (manifest w1)
               = {[d_prev]} ∪ completed_top_level_dirs (manifest w) /\
             exists q, io_log w1 = io_log w ++ save_event env q (manifest w1)
    end.
Proof.
  intros Hs H.
  destruct (write_batch_decomp env w w' e rest H) as (w1 & w2 & w3 & Ht & He & Hw & Hr).
  destruct (track_directory_spec env w w1 _ Hs Ht)
    as (_ & _ & _ & _ & _ & Hl1 & Hcur1 & Hcase).
  destruct (ensure_writer_spec env w1 w2 He)
    as (pw & opening & Hcw2 & Hlog2 & Hop & Hl2 & Hm2 & _ & _).
  destruct (write_current_spec env w2 w3 pw e rest Hcw2 Hw)
    as (_ & _ & _ & _ & _ & Hm3 & Hl3 & Hlog3).
  assert (Hpost : exists post, io_log w' = io_log w3 ++ post /\
                  last_top_level_dir w' = last_top_level_dir w3 /\
                  current_top_level_dir (manifest w') = current_top_level_dir (manifest w3)).
  { destruct (should_rotate env w3).
    - destruct (rotate_keeps_dirs env _ w3 w' Hr) as (Hl' & Hcur' & _ & evs & Hlog').
      exists evs. repeat split; assumption.
    - injection Hr as <-. exists []. rewrite app_nil_r. repeat split; reflexivity. }
  destruct Hpost as (post & Hlog' & Hl' & Hcur').
  exists w1, opening, (current_chunk w2), post.
  split; [exact Ht|]. split.
  { rewrite Hlog', Hlog3, Hlog2. rewrite <- !app_assoc. reflexivity. }
  split; [exact Hop|]. split.
  { rewrite Hl', Hl3, Hl2. exact Hl1. }
  split.
  { rewrite Hcur', Hm3, Hm2. exact Hcur1. }
  unfold dirs_in_sync in Hs.
  destruct (last_top_level_dir w) as [d_prev|].
  - destruct (String.eqb d_prev (top_level_dir e)); [exact Hcase|].
    destruct Hcase as [Hm1 Hq]. split; [|exact Hq].
    rewrite Hm1. unfold complete_current_directory. rewrite Hs. reflexivity.
  - destruct Hcase as [Hm1 Hq]. split; [|exact Hq]. rewrite Hm1. reflexivity.
Qed.

Lemma write_batch_tracks_directory_witness :
  exists w w',
    dirs_in_sync w /\
    write_batch (ok_env 1) w [sample_entry "/r/B/y" "B"] = Ok w' /\
    last_top_level_dir w = Some "A"%string /\
    exists w1 opening k post,
      track_directory (ok_env 1) w "B" = Ok w1 /\
      io_log w' = io_log w1 ++ opening ++ EvWrite k 1 :: post /\
      completed_top_level_dirs (manifest w1) = {["A"%string]} ∪ completed_top_level_dirs (manifest w).
Proof.
  set (w0 := MkWriter (sample_config 500000) None 0 0 0
               (start_directory (Manifest.new "/r" 1700000000) "A") (Some "A"%string) []).
  assert (Hs : dirs_in_sync w0) by reflexivity.
  destruct (write_batch (ok_env 1) w0 [sample_entry "/r/B/y" "B"]) as [w'|er] eqn:Hw;
    [|vm_compute in Hw; discriminate Hw].
  exists w0, w'. split; [exact Hs|]. split; [exact Hw|]. split; [reflexivity|].
  destruct (write_batch_tracks_directory (ok_env 1) w0 w' _ [] Hs Hw)
    as (w1 & opening & k & post & Ht & Hlog & _ & _ & _ & Hcase).
  exists w1, opening, k, post. split; [exact Ht|]. split; [exact Hlog|].
  cbn [w0 last_top_level_dir top_level_dir sample_entry String.eqb Ascii.eqb Bool.eqb andb]
    in Hcase.
  exact (proj1 Hcase).
Defined.

(** *** C5: rotation between batches *)

(** C5 (as stated, refuted): a chunk exceeds [rows_per_chunk] by at most
    [batch_size - 1] rows. With [--rows-per-chunk 0] and [batch_size = 2],
    a batch of two rows rotates right after it is written: the closed
    chunk holds 2 rows, which is [rows_per_chunk + batch_size], more than
    [rows_per_chunk + batch_size - 1 = 1]. *)
Lemma chunk_exceeds_by_batch_size :
  exists w m log,
    Writer.new (sample_config 0) "/r" (ok_env 0) = Ok w /\
    consume_batches w [(ok_env 1, [sample_entry "/r/A/x" "A"; sample_entry "/r/A/y" "A"])]
      (ok_env 2) = Ok (m, log) /\
    In (EvClose 1 2) log /\ ~ (2 <= 0 + 2 - 1).
Proof.
  set (w0 := MkWriter (sample_config 0) None 0 0 0 (Manifest.new "/r" 1700000000) None []).
  destruct (consume_batches w0
              [(ok_env 1, [sample_entry "/r/A/x" "A"; sample_entry "/r/A/y" "A"])]
              (ok_env 2)) as [[m log]|er] eqn:Hc;
    [|vm_compute in Hc; discriminate Hc].
  exists w0, m, log. split; [reflexivity|]. split; [exact Hc|].
  vm_compute in Hc. injection Hc as <- <-. split; [simpl; tauto|lia].
Qed.

(** C5 (amended): for a non-empty batch of at most [batch_size] rows,
    [write_batch] writes the whole batch into one chunk [k] (the open one,
    or a new one opened first if none is open), with no other write or
    close before it. Only then does it check for rotation: it closes chunk
    [k], holding [rows] rows, saves the manifest (a failed save is only
    logged) and opens chunk [k + 1] exactly when [rows >= rows_per_chunk]
    or the time since chunk [k] was opened, read after the write, is at
    least [time_interval]. When [rows_per_chunk >= 1], [rows <=
    rows_per_chunk + batch_size - 1]. When [rows_per_chunk = 0], the chunk
    holds exactly this batch and is always closed after it. *)
Theorem write_batch_rotates_after_whole_batch (env : Env) (w w' : RotatingParquetWriter)
    (e : FileEntry) (rest : list FileEntry) (batch_size : nat) :
  (length (e :: rest) <= batch_size)%nat ->
  rows_per_chunk (config w) + N.of_nat batch_size < 2 ^ 64 ->
  chunk_rows_ok w ->
  write_batch env w (e :: rest) = Ok w' ->
  let fresh := match current_writer w with None => true | Some _ => false end in
  let k := if fresh then u64_wrap (current_chunk w + 1) else current_chunk w in
  let rows := (if fresh then 0 else current_chunk_rows w) + N.of_nat (length (e :: rest)) in
  let opened := if fresh then now_instant env else last_rotation w in
  exists pre post,
    io_log w' = io_log w ++ pre ++ EvWrite k (N.of_nat (length (e :: rest))) :: post /\
    bookkeeping pre /\
    (if (rows_per_chunk (config w) <=? rows)
        || (time_interval (config w) <=? check_instant env - opened)
     then exists q p,
       post = [EvClose k rows] ++ save_event env q (manifest w') ++ [EvOpen (u64_wrap (k + 1)) p]
     else post = []) /\
    (1 <= rows_per_chunk (config w) -> rows <= rows_per_chunk (config w) + N.of_nat batch_size - 1) /\
    (rows_per_chunk (config w) = 0 ->
     rows = N.of_nat (length (e :: rest)) /\
     exists q p,
       post = [EvClose k rows] ++ save_event env q (manifest w') ++ [EvOpen (u64_wrap (k + 1)) p]) /\
    chunk_rows_ok w'.
Proof.
  intros Hlen Hbig Hok H fresh k rows opened.
  destruct (write_batch_decomp env w w' e rest H) as (w1 & w2 & w3 & Ht & He & Hw & Hr).
  destruct (track_directory_frame env w w1 _ Ht)
    as (Hc1 & Hcw1 & Hk1 & Hr1 & Hlr1 & evs1 & Hlog1 & Hbk1).
  destruct (ensure_writer_spec env w1 w2 He)
    as (pw & opening & Hcw2 & Hlog2 & Hop & _ & _ & Hc2 & Hcase).
  destruct (write_current_spec env w2 w3 pw e rest Hcw2 Hw)
    as (Hc3 & Hk3 & Hcw3 & Hrows3 & Hlr3 & _ & _ & Hlog3).
  set (len := N.of_nat (length (e :: rest))) in *.
  assert (Hlenb : len <= N.of_nat batch_size) by (subst len; lia).
  (* The open chunk's number, row count and opening time, before the write. *)
  assert (Hpre : current_chunk w2 = k /\ rows_written pw = current_chunk_rows w2 /\
                 current_chunk_rows w2 + len = rows /\ last_rotation w2 = opened /\
                 (current_chunk_rows w2 = 0 \/ current_chunk_rows w2 < rows_per_chunk (config w))).
  { subst fresh k rows opened. unfold chunk_rows_ok in Hok.
    rewrite Hcw1 in Hcase. destruct (current_writer w) as [pw0|].
    - subst w2. rewrite Hcw1 in Hcw2. injection Hcw2 as <-.
      destruct Hok as [Hrw Hlt]. rewrite Hk1, Hr1, Hlr1. repeat split; try reflexivity.
      + exact Hrw.
      + exact Hlt.
    - destruct Hcase as (Hk2 & Hrw & Hr2 & Hlr2).
      rewrite Hk2, Hk1, Hr2, Hlr2, Hrw. repeat split; try reflexivity. left. reflexivity. }
  destruct Hpre as (Hk2 & Hrw2 & Hrows & Hlr2 & Hbelow).
  assert (Hwrap : u64_wrap (current_chunk_rows w2 + len) = rows).
  { unfold u64_wrap. rewrite N.mod_small by lia. exact Hrows. }
  assert (Hbound : 1 <= rows_per_chunk (config w) ->
                   rows <= rows_per_chunk (config w) + N.of_nat batch_size - 1) by lia.
  assert (Hzero : rows_per_chunk (config w) = 0 -> rows = len) by lia.
  assert (Hcfg : config w3 = config w) by (rewrite Hc3, Hc2, Hc1; reflexivity).
  assert (Hsr : should_rotate env w3 =
                (rows_per_chunk (config w) <=? rows)
                || (time_interval (config w) <=? check_instant env - opened)).
  { unfold should_rotate. rewrite Hcfg, Hrows3, Hwrap, Hlr3, Hlr2. reflexivity. }
  rewrite Hsr in Hr.
  assert (Hpre : bookkeeping (evs1 ++ opening)).
  { apply Forall_app. split; [exact Hbk1|].
    eapply Forall_impl; [exact Hop|]. intros [] ?; simpl in *; tauto. }
  exists (evs1 ++ opening).
  destruct ((rows_per_chunk (config w) <=? rows)
            || (time_interval (config w) <=? check_instant env - opened)) eqn:Hcond.
  - destruct (rotate_spec env _ w3 w' Hr) as (p & Hc' & Hcw' & Hr' & _ & _ & Hcase').
    rewrite Hcw3 in Hcase'. destruct Hcase' as (p0 & q & Hk' & Hm' & Hlog').
    simpl in Hlog'. rewrite Hrw2, Hwrap, Hk3, Hk2 in Hlog'.
    assert (Hpost : [EvClose k rows] ++ save_event env q (manifest w') ++
                    [EvOpen (current_chunk w') p]
                    = [EvClose k rows] ++ save_event env q (manifest w') ++
                      [EvOpen (u64_wrap (k + 1)) p]).
    { rewrite Hk', Hk3, Hk2. reflexivity. }
    exists ([EvClose k rows] ++ save_event env q (manifest w') ++ [EvOpen (current_chunk w') p]).
    split; [|split; [|split; [|split; [|split]]]].
    + rewrite Hlog', Hlog3, Hlog2, Hlog1, Hk2. rewrite <- !app_assoc. reflexivity.
    + exact Hpre.
    + exists q, p. exact Hpost.
    + exact Hbound.
    + intros H0. split; [exact (Hzero H0)|]. exists q, p. exact Hpost.
    + unfold chunk_rows_ok. rewrite Hcw', Hr'. simpl. split; [reflexivity|left; reflexivity].
  - injection Hr as <-. exists [].
    apply orb_false_elim in Hcond as [Hc _]. apply N.leb_gt in Hc.
    split; [|split; [|split; [|split; [|split]]]].
    + rewrite Hlog3, Hlog2, Hlog1, Hk2. rewrite <- !app_assoc. reflexivity.
    + exact Hpre.
    + reflexivity.
    + exact Hbound.
    + intros H0. lia.
    + unfold chunk_rows_ok. rewrite Hcw3, Hrows3, Hcfg. simpl.
      rewrite Hrw2, Hwrap. split; [reflexivity|right; exact Hc].
Qed.

(** On a fresh writer with [rows_per_chunk = 5] and a five-minute
    interval, a first write of two rows that takes five minutes closes the
    chunk it opened. *)
Lemma write_batch_rotates_after_whole_batch_witness :
  exists w',
    write_batch (slow_write_env 1 (300 * 10 ^ 9)) (fresh_writer 5)
      [sample_entry "/r/A/x" "A"; sample_entry "/r/A/y" "A"] = Ok w' /\
    exists pre q p,
      io_log w' = io_log (fresh_writer 5) ++ pre ++
                  [EvWrite 1 2; EvClose 1 2; EvSave q (manifest w'); EvOpen 2 p] /\
      chunk_rows_ok w'.
Proof.
  destruct (write_batch (slow_write_env 1 (300 * 10 ^ 9)) (fresh_writer 5)
              [sample_entry "/r/A/x" "A"; sample_entry "/r/A/y" "A"]) as [w'|er] eqn:Hw;
    [|vm_compute in Hw; discriminate Hw].
  exists w'. split; [reflexivity|].
  pose proof (write_batch_rotates_after_whole_batch (slow_write_env 1 (300 * 10 ^ 9))
                (fresh_writer 5) w'
                (sample_entry "/r/A/x" "A") [sample_entry "/r/A/y" "A"] 2
                ltac:(simpl; lia) ltac:(simpl; lia) I Hw) as T.
  cbv zeta in T. destruct T as (pre & post & Hlog & _ & Hif & _ & _ & Hok).
  vm_compute in Hif. destruct Hif as (q & p & ->).
  exists pre, q, p. split; [|exact Hok].
  rewrite Hlog. reflexivity.
Defined.

(** *** C2: chunk numbers *)

(** C2 (code defect, shown on a run): [ChunkMetadata.chunk_number] is
    documented as 0-indexed, but [rotate] increments [current_chunk]
    before opening a chunk. A fresh scan's only chunk is numbered 1
    (file [scan_chunk_0001]), so [chunks[0].chunk_number = 1], not 0. A
    writer resumed from that manifest ([chunk_count = 1]) opens chunk 2
    next, not chunk 1. *)
Theorem chunk_numbers_start_at_one :
  exists m log,
    consume_batches (fresh_writer 500000) [(ok_env 1, [sample_entry "/r/A/x" "A"])] (ok_env 2)
      = Ok (m, log) /\
    map chunk_number (chunks m) = [1] /\
    map file_path (chunks m) = ["/out/scan_chunk_0001.parquet"%string] /\
    exists w2 w2',
      resume (sample_config 500000) "/r" (ok_env 3) (Parsed m) = Ok w2 /\
      chunk_count (manifest w2) = 1 /\
      write_batch (ok_env 4) w2 [sample_entry "/r/B/y" "B"] = Ok w2' /\
      In (EvOpen 2 "/out/scan_chunk_0002.parquet") (io_log w2').
Proof.
  destruct (consume_batches (fresh_writer 500000) [(ok_env 1, [sample_entry "/r/A/x" "A"])]
              (ok_env 2)) as [[m log]|er] eqn:Hc;
    [|vm_compute in Hc; discriminate Hc].
  exists m, log. split; [reflexivity|].
  vm_compute in Hc. injection Hc as <- <-.
  split; [reflexivity|]. split; [reflexivity|].
  eexists. eexists. split; [reflexivity|]. split; [reflexivity|].
  split; [reflexivity|]. vm_compute. tauto.
Qed.

(** *** C3: finalize *)

(** C3 (code defect): [finalize] closes the last chunk and marks the
    manifest [completed], but never calls [complete_current_directory]: the
    set of completed top-level directories and the directory in progress
    are those the writer had before [finalize]. *)
Theorem finalize_keeps_directories (env : Env) (w : RotatingParquetWriter)
    (m : ScanManifest) (log : list Event) :
  finalize env w = Ok (m, log) ->
  completed m = true /\
  completed_top_level_dirs m = completed_top_level_dirs (manifest w) /\
  current_top_level_dir m = current_top_level_dir (manifest w).
Proof.
  unfold finalize. intros H. inv_bind H.
  assert (Hw1 : completed_top_level_dirs (manifest a) = completed_top_level_dirs (manifest w) /\
                current_top_level_dir (manifest a) = current_top_level_dir (manifest w)).
  { destruct (current_writer w) as [pw|].
    - inv_bind Ha. inv_bind Ha. injection Ha as <-. split; reflexivity.
    - injection Ha as <-. split; reflexivity. }
  destruct Hw1 as [Hd Hc]. simpl in H. inv_bind H.
  destruct (save_ok env); [|discriminate H]. injection H as <- _.
  simpl. split; [reflexivity|]. split; assumption.
Qed.

(** On the scan of the top-level directories [A], [B], [C] the final
    manifest is [completed] with [completed_top_level_dirs = {A, B}]: [C]
    is still only in progress. *)
Lemma finalize_keeps_directories_witness :
  exists w m log,
    write_all (fresh_writer 500000)
      [(ok_env 1, [sample_entry "/r/A/x" "A"]); (ok_env 2, [sample_entry "/r/B/y" "B"]);
       (ok_env 3, [sample_entry "/r/C/z" "C"])] = Ok w /\
    finalize (ok_env 4) w = Ok (m, log) /\
    completed m = true /\
    completed_top_level_dirs m = {["A"; "B"]}%string /\
    current_top_level_dir m = Some "C"%string /\
    "C"%string ∉ completed_top_level_dirs m.
Proof.
  destruct (write_all (fresh_writer 500000)
      [(ok_env 1, [sample_entry "/r/A/x" "A"]); (ok_env 2, [sample_entry "/r/B/y" "B"]);
       (ok_env 3, [sample_entry "/r/C/z" "C"])]) as [w|er] eqn:Hw;
    [|vm_compute in Hw; discriminate Hw].
  destruct (finalize (ok_env 4) w) as [[m log]|er] eqn:Hf;
    [|vm_compute in Hw; injection Hw as <-; vm_compute in Hf; discriminate Hf].
  exists w, m, log. split; [reflexivity|]. split; [exact Hf|].
  destruct (finalize_keeps_directories (ok_env 4) w m log Hf) as (Hcm & Hd & Hc).
  vm_compute in Hw. injection Hw as <-.
  assert (Hset : completed_top_level_dirs m = {["A"; "B"]}%string)
    by (rewrite Hd; vm_compute; reflexivity).
  split; [exact Hcm|]. split; [exact Hset|]. split; [rewrite Hc; reflexivity|].
  rewrite Hset. set_solver.
Defined.

(** ** Properties of the other functions *)

Lemma list_ascii_app (a b : string) :
  list_ascii_of_string (a +:+ b) = list_ascii_of_string a ++ list_ascii_of_string b.
Proof.
  induction a as [|c a IH]; [reflexivity|].
  change (String c a +:+ b)%string with (String c (a +:+ b)). simpl. rewrite IH. reflexivity.
Qed.

Lemma dec_aux_app (f : nat) (n : N) (acc : string) :
  list_ascii_of_string (dec_aux f n acc)
  = list_ascii_of_string (dec_aux f n "") ++ list_ascii_of_string acc.
Proof.
  revert n acc. induction f as [|f IH]; intros n acc; [reflexivity|].
  simpl. destruct (n <? 10); [reflexivity|].
  rewrite IH, (IH _ (String _ "")). simpl. rewrite <- app_assoc. reflexivity.
Qed.

Lemma digit_value_digit (n : N) : digit_value (ascii_of_N (48 + n mod 10)) = n mod 10.
Proof.
  unfold digit_value. assert (n mod 10 < 10) by (apply N.mod_lt; lia).
  rewrite N_ascii_embedding by lia. generalize (n mod 10). intros r. lia.
Qed.

Lemma is_digit_digit (n : N) : is_digit (ascii_of_N (48 + n mod 10)) = true.
Proof.
  unfold is_digit. assert (n mod 10 < 10) by (apply N.mod_lt; lia).
  rewrite N_ascii_embedding by lia. apply andb_true_intro.
  revert H. generalize (n mod 10). intros r H. split; apply N.leb_le; lia.
Qed.

Lemma dec_aux_value (f : nat) (n : N) :
  n < 10 ^ N.of_nat f -> dec_value (dec_aux f n "") = n.
Proof.
  revert n. induction f as [|f IH]; intros n Hn.
  - simpl in Hn. assert (n = 0) as -> by lia. reflexivity.
  - rewrite Nat2N.inj_succ, N.pow_succ_r' in Hn.
    unfold dec_value. simpl. destruct (n <? 10) eqn:E.
    + apply N.ltb_lt in E. simpl. unfold dec_step. rewrite digit_value_digit.
      rewrite N.mod_small by lia. reflexivity.
    + apply N.ltb_ge in E. rewrite dec_aux_app. simpl. rewrite fold_left_app. simpl.
      fold (dec_value (dec_aux f (n / 10) "")). rewrite IH.
      * unfold dec_step. rewrite digit_value_digit. pose proof (N.div_mod n 10 ltac:(discriminate)).
        revert H. generalize (n / 10) (n mod 10). intros q r H. lia.
      * apply N.Div0.div_lt_upper_bound. lia.
Qed.

Lemma dec_aux_digits (f : nat) (n : N) (acc : string) :
  Forall (fun c => is_digit c = true) (list_ascii_of_string acc) ->
  Forall (fun c => is_digit c = true) (list_ascii_of_string (dec_aux f n acc)).
Proof.
  revert n acc. induction f as [|f IH]; intros n acc Hacc; [exact Hacc|].
  simpl. destruct (n <? 10).
  - simpl. constructor; [apply is_digit_digit|exact Hacc].
  - apply IH. simpl. constructor; [apply is_digit_digit|exact Hacc].
Qed.

Lemma dec_aux_length (f : nat) (n : N) (k : nat) :
  (1 <= k)%nat -> n < 10 ^ N.of_nat k ->
  (length (list_ascii_of_string (dec_aux f n "")) <= k)%nat.
Proof.
  revert n k. induction f as [|f IH]; intros n k Hk Hn; [simpl; lia|].
  simpl. destruct (n <? 10) eqn:E; [simpl; lia|].
  apply N.ltb_ge in E. rewrite dec_aux_app. rewrite length_app. simpl.
  destruct k as [|[|k]]; [lia| |].
  - simpl in Hn. lia.
  - assert (n / 10 < 10 ^ N.of_nat (S k)).
    { apply N.Div0.div_lt_upper_bound. rewrite <- N.pow_succ_r'.
      rewrite <- Nat2N.inj_succ. exact Hn. }
    specialize (IH (n / 10) (S k) ltac:(lia) H). lia.
Qed.

Lemma dec_value_bound (l : list ascii) :
  Forall (fun c => is_digit c = true) l ->
  fold_left dec_step l 0 < 10 ^ N.of_nat (length l).
Proof.
  induction l as [|c r IH] using rev_ind; intros Hd; [simpl; lia|].
  apply Forall_app in Hd as [Hr Hc]. inversion Hc as [|? ? Hc' _]; subst.
  specialize (IH Hr). rewrite fold_left_app, length_app. simpl.
  unfold is_digit in Hc'. apply andb_true_iff in Hc' as [H1 H2].
  apply N.leb_le in H1, H2. set (v := fold_left dec_step r 0) in *. unfold dec_step, digit_value.
  rewrite Nat.add_1_r, Nat2N.inj_succ, N.pow_succ_r'. lia.
Qed.

Lemma filter_all {A} (f : A -> bool) (l : list A) :
  Forall (fun x => f x = true) l -> List.filter f l = l.
Proof. induction 1 as [|x l Hx _ IH]; simpl; [reflexivity|]. rewrite Hx, IH. reflexivity. Qed.

Lemma digits_not_comma (l : list ascii) :
  Forall (fun c => is_digit c = true) l -> Forall (fun c => not_comma c = true) l.
Proof.
  intros H. eapply Forall_impl; [exact H|]. intros c Hc. unfold not_comma.
  destruct (Ascii.eqb_spec c ","%char) as [->|]; [discriminate Hc|reflexivity].
Qed.

Lemma format_number_loop_filter (i : nat) (cs acc : list ascii) :
  List.filter not_comma (Utils.format_number_loop i cs acc)
  = rev (List.filter not_comma cs) ++ List.filter not_comma acc.
Proof.
  revert i acc. induction cs as [|c cs IH]; intros i acc; [reflexivity|].
  cbn [Utils.format_number_loop]. rewrite IH.
  destruct ((0 <? i)%nat && (i mod 3 =? 0)%nat); cbn [List.filter rev];
    destruct (not_comma c); simpl; rewrite <- ?app_assoc; reflexivity.
Qed.

Lemma format_number_loop_small (i : nat) (cs acc : list ascii) :
  (i + length cs <= 3)%nat -> Utils.format_number_loop i cs acc = rev cs ++ acc.
Proof.
  revert i acc. induction cs as [|c cs IH]; intros i acc Hi; [reflexivity|].
  simpl in *. rewrite IH by lia. rewrite <- app_assoc. simpl.
  destruct i as [|[|[|i]]]; [reflexivity|reflexivity|reflexivity|lia].
Qed.

Lemma format_number_loop_keeps (i : nat) (cs acc : list ascii) (x : ascii) :
  In x acc -> In x (Utils.format_number_loop i cs acc).
Proof.
  revert i acc. induction cs as [|c cs IH]; intros i acc Hx; [exact Hx|].
  cbn [Utils.format_number_loop]. apply IH. right.
  destruct ((0 <? i)%nat && (i mod 3 =? 0)%nat); [right|]; exact Hx.
Qed.

Lemma format_number_loop_comma (cs acc : list ascii) :
  (4 <= length cs)%nat -> In ","%char (Utils.format_number_loop 0 cs acc).
Proof.
  intros H. destruct cs as [|a [|b [|c [|d rest]]]]; simpl in H; try lia.
  simpl. apply format_number_loop_keeps. right. left. reflexivity.
Qed.

Lemma u64_below_10_20 (n : N) : n < 2 ^ 64 -> n < 10 ^ N.of_nat 20.
Proof. intros H. assert (2 ^ 64 < 10 ^ N.of_nat 20) by (vm_compute; reflexivity). lia. Qed.

(** X1: for every [u64] value, [format_number] only inserts separators:
    removing its commas gives the plain decimal rendering of the number,
    which consists of digits only and reads back as the number. *)
Theorem format_number_digits (n : N) :
  n < 2 ^ 64 ->
  strip_commas (Utils.format_number n) = to_decimal n /\
  dec_value (to_decimal n) = n /\
  Forall (fun c => is_digit c = true) (list_ascii_of_string (to_decimal n)).
Proof.
  intros Hn. unfold to_decimal.
  pose proof (dec_aux_digits 20 n "" (List.Forall_nil _)) as Hd.
  split; [|split; [apply dec_aux_value, u64_below_10_20, Hn|exact Hd]].
  unfold strip_commas, Utils.format_number, to_decimal.
  rewrite list_ascii_of_string_of_list_ascii, format_number_loop_filter. cbn [List.filter].
  rewrite filter_all by (apply Forall_rev, digits_not_comma, Hd).
  rewrite app_nil_r, rev_involutive. apply string_of_list_ascii_of_string.
Qed.

(** X2: [format_number] leaves a number below 1000 unchanged, and puts at
    least one comma in the rendering of every number from 1000 on. *)
Theorem format_number_separators (n : N) :
  n < 2 ^ 64 ->
  (n < 1000 -> Utils.format_number n = to_decimal n) /\
  (1000 <= n -> In ","%char (list_ascii_of_string (Utils.format_number n))).
Proof.
  intros Hn. unfold Utils.format_number, to_decimal. split.
  - intros Hs. rewrite format_number_loop_small.
    + rewrite app_nil_r, rev_involutive. apply string_of_list_ascii_of_string.
    + rewrite length_rev. apply (dec_aux_length 20 n 3); [lia|exact Hs].
  - intros Hl. rewrite list_ascii_of_string_of_list_ascii.
    apply format_number_loop_comma. rewrite length_rev.
    destruct (Nat.le_gt_cases 4 (length (list_ascii_of_string (dec_aux 20 n "")))) as [H|H];
      [exact H|exfalso].
    pose proof (dec_value_bound _ (dec_aux_digits 20 n "" (List.Forall_nil _))) as Hb.
    fold (dec_value (dec_aux 20 n "")) in Hb.
    rewrite dec_aux_value in Hb by (apply u64_below_10_20, Hn).
    assert (10 ^ N.of_nat (length (list_ascii_of_string (dec_aux 20 n ""))) <= 10 ^ 3).
    { apply N.pow_le_mono_r; lia. }
    assert (10 ^ 3 = 1000) by reflexivity. lia.
Qed.

Lemma app_cons (c : ascii) (a b : string) : (String c a +:+ b)%string = String c (a +:+ b).
Proof. reflexivity. Qed.

Lemma zeros_digits (k : nat) : Forall (fun c => is_digit c = true) (list_ascii_of_string (zeros k)).
Proof. induction k as [|k IH]; simpl; constructor; [reflexivity|exact IH]. Qed.

Lemma zeros_value (k : nat) : fold_left dec_step (list_ascii_of_string (zeros k)) 0 = 0.
Proof. induction k as [|k IH]; [reflexivity|]. simpl. exact IH. Qed.

Lemma fmt04_digits (n : N) : Forall (fun c => is_digit c = true) (list_ascii_of_string (fmt04 n)).
Proof.
  unfold fmt04. rewrite list_ascii_app. apply Forall_app. split; [apply zeros_digits|].
  apply dec_aux_digits. constructor.
Qed.

Lemma fmt04_value (n : N) : n < 2 ^ 64 -> dec_value (fmt04 n) = n.
Proof.
  intros Hn. unfold fmt04, dec_value. rewrite list_ascii_app, fold_left_app, zeros_value.
  fold (dec_value (to_decimal n)). unfold to_decimal. apply dec_aux_value, u64_below_10_20, Hn.
Qed.

Lemma digits_dot_inj (x y r r' : list ascii) :
  Forall (fun c => is_digit c = true) x -> Forall (fun c => is_digit c = true) y ->
  x ++ "."%char :: r = y ++ "."%char :: r' -> x = y.
Proof.
  revert y. induction x as [|a x IH]; intros [|b y] Hx Hy H; simpl in H.
  - reflexivity.
  - injection H as <- _. inversion Hy as [|? ? Hd _]. discriminate Hd.
  - injection H as -> _. inversion Hx as [|? ? Hd _]. discriminate Hd.
  - injection H as -> H. inversion Hx; inversion Hy; subst. f_equal. apply IH; assumption.
Qed.

Lemma join_inj (d a b : string) : join d a = join d b -> a = b.
Proof.
  unfold join. destruct d as [|c d']; [exact id|].
  destruct (String.eqb _ _); intros H.
  - exact (inj (String.app (String c d')) _ _ H).
  - apply (inj (String.app "/")). exact (inj (String.app (String c d')) _ _ H).
Qed.

Lemma get_chunk_path_ok (cfg : RotatingWriterConfig) (n : N) (p : string) :
  get_chunk_path cfg n = Ok p ->
  exists stem ext, file_stem (base_output_path cfg) = Some stem /\
    p = join (base_parent (base_output_path cfg)) (stem +:+ "_chunk_" +:+ fmt04 n +:+ "." +:+ ext)%string.
Proof.
  unfold get_chunk_path. destruct (file_stem _) as [stem|]; [|discriminate].
  intros [= <-]. eauto.
Qed.

Lemma get_manifest_path_ok (cfg : RotatingWriterConfig) (q : string) :
  get_manifest_path cfg = Ok q ->
  exists stem, file_stem (base_output_path cfg) = Some stem /\
    q = join (base_parent (base_output_path cfg)) (stem +:+ "_manifest.json")%string.
Proof.
  unfold get_manifest_path. destruct (file_stem _) as [stem|]; [|discriminate].
  intros [= <-]. eauto.
Qed.

Lemma chunk_path_inj (cfg : RotatingWriterConfig) (n m : N) (p : string) :
  n < 2 ^ 64 -> m < 2 ^ 64 ->
  get_chunk_path cfg n = Ok p -> get_chunk_path cfg m = Ok p -> n = m.
Proof.
  intros Hn Hm H1 H2.
  destruct (get_chunk_path_ok _ _ _ H1) as (s1 & e1 & Hs1 & ->).
  destruct (get_chunk_path_ok _ _ _ H2) as (s2 & e2 & Hs2 & Hp).
  rewrite Hs1 in Hs2. injection Hs2 as <-.
  apply join_inj in Hp.
  apply (inj (String.app s1)), (inj (String.app "_chunk_")) in Hp.
  apply (f_equal list_ascii_of_string) in Hp. rewrite !list_ascii_app in Hp.
  apply digits_dot_inj in Hp; [|apply fmt04_digits|apply fmt04_digits].
  apply (f_equal (fold_left dec_step)) in Hp.
  pose proof (fmt04_value n Hn) as Vn. pose proof (fmt04_value m Hm) as Vm.
  unfold dec_value in Vn, Vm. rewrite <- Vn, <- Vm, Hp. reflexivity.
Qed.

Lemma chunk_path_not_manifest (cfg : RotatingWriterConfig) (n : N) (p : string) :
  get_chunk_path cfg n = Ok p -> get_manifest_path cfg <> Ok p.
Proof.
  intros H1 H2.
  destruct (get_chunk_path_ok _ _ _ H1) as (s1 & e1 & Hs1 & ->).
  destruct (get_manifest_path_ok _ _ H2) as (s2 & Hs2 & Hp).
  rewrite Hs1 in Hs2. injection Hs2 as <-.
  apply join_inj, (inj (String.app s1)) in Hp.
  rewrite 2!app_cons in Hp. injection Hp as Hp. discriminate Hp.
Qed.

Lemma file_stem_none (p : string) : file_stem p = None <-> file_name p = None.
Proof.
  unfold file_stem. destruct (file_name p) as [f|]; [|tauto].
  unfold rsplit_file_at_dot.
  destruct (String.eqb f ".."); [split; discriminate|].
  destruct (rsplit_dot f) as [[b a]|]; [|split; discriminate].
  destruct (String.eqb b ""); split; discriminate.
Qed.

Lemma rotate_no_stem (env : Env) (t : N) (w : RotatingParquetWriter) :
  file_name (base_output_path (config w)) = None -> current_writer w = None ->
  rotate env t w = Err (Panic "file_stem").
Proof.
  intros Hf Hc. apply file_stem_none in Hf.
  unfold rotate. rewrite Hc. simpl. unfold get_chunk_path. rewrite Hf. reflexivity.
Qed.

(** X4: when the base output path has no file name (e.g. [/]), every path
    computation panics on [file_stem().unwrap()]: [resume] panics, and so
    does the first non-empty [write_batch] of a writer with no open chunk. *)
Theorem base_without_file_name_panics (cfg : RotatingWriterConfig) (scan_path : string)
    (env env' : Env) (file : ManifestFile) (w : RotatingParquetWriter) (entries : list FileEntry) :
  file_name (base_output_path cfg) = None ->
  resume cfg scan_path env file = Err (Panic "file_stem") /\
  (config w = cfg -> current_writer w = None -> entries <> [] ->
   write_batch env' w entries = Err (Panic "file_stem")).
Proof.
  intros Hf. pose proof Hf as Hs. apply file_stem_none in Hs.
  split.
  { unfold resume, get_manifest_path. rewrite Hs. reflexivity. }
  intros Hcfg Hc Hne. destruct entries as [|e rest]; [congruence|].
  subst cfg. unfold write_batch, track_directory.
  destruct (last_top_level_dir w) as [d|].
  - destruct (String.eqb d (top_level_dir e)).
    + simpl. rewrite Hc, rotate_no_stem by (simpl; assumption || reflexivity). reflexivity.
    + unfold get_manifest_path. rewrite Hs. reflexivity.
  - simpl. rewrite Hc, rotate_no_stem by (simpl; assumption || reflexivity). reflexivity.
Qed.

Theorem base_without_file_name_panics_witness :
  resume {| base_output_path := "/"; rows_per_chunk := 5; time_interval := 1 |} "/r" (ok_env 0)
    Missing = Err (Panic "file_stem").
Proof.
  destruct (base_without_file_name_panics
              {| base_output_path := "/"; rows_per_chunk := 5; time_interval := 1 |} "/r"
              (ok_env 0) (ok_env 0) Missing (fresh_writer 5) [] eq_refl) as (H & _).
  exact H.
Defined.

Lemma wrap_add_l (a b : N) : (a mod 2 ^ 64 + b) mod 2 ^ 64 = (a + b) mod 2 ^ 64.
Proof. apply N.Div0.add_mod_idemp_l. Qed.

Lemma wrap_add_r (a b : N) : (a + b mod 2 ^ 64) mod 2 ^ 64 = (a + b) mod 2 ^ 64.
Proof. apply N.Div0.add_mod_idemp_r. Qed.

Lemma pw_write_batch_rows (env : Env) (pw pw' : ParquetFileWriter) (b : list FileEntry) :
  rows_written pw < 2 ^ 64 -> pw_write_batch env pw b = Ok pw' ->
  rows_written pw' = (rows_written pw + N.of_nat (length b)) mod 2 ^ 64.
Proof.
  intros Hlt. unfold pw_write_batch. destruct b as [|e rest].
  - intros [= <-]. simpl. rewrite N.add_0_r, N.mod_small; [reflexivity|exact Hlt].
  - destruct (write_ok env); [|discriminate]. intros [= <-]. reflexivity.
Qed.

Lemma pw_write_all_rows (pw pw' : ParquetFileWriter) (steps : list (Env * list FileEntry)) :
  rows_written pw < 2 ^ 64 -> pw_write_all pw steps = Ok pw' ->
  rows_written pw' = (rows_written pw + steps_rows steps) mod 2 ^ 64.
Proof.
  revert pw. induction steps as [|[env b] rest IH]; intros pw Hlt H; simpl in H.
  - injection H as <-. simpl. rewrite N.add_0_r, N.mod_small; [reflexivity|exact Hlt].
  - inv_bind H. apply pw_write_batch_rows in Ha as Hr; [|exact Hlt].
    rewrite (IH a); [|rewrite Hr; apply N.mod_lt; lia|exact H].
    rewrite Hr, wrap_add_l. simpl. f_equal. lia.
Qed.

(** X5: when [write_to_parquet] succeeds, the row count it returns is the
    number of entries of all the batches received, modulo [2^64]. *)
Theorem write_to_parquet_rows (env final_env : Env) (output_path : string)
    (steps : list (Env * list FileEntry)) (total : N) :
  write_to_parquet env output_path steps final_env = Ok total ->
  total = steps_rows steps mod 2 ^ 64.
Proof.
  unfold write_to_parquet, pw_consume_batches. intros H.
  inv_bind H. apply pw_new_ok in Ha as ->.
  inv_bind H. inv_bind H. injection H as <-.
  apply pw_write_all_rows in Ha; [|simpl; lia]. rewrite Ha. reflexivity.
Qed.

Theorem write_to_parquet_rows_witness :
  write_to_parquet (ok_env 0) "/out/a.parquet"
    [(ok_env 1, [sample_entry "/r/A/x" "A"; sample_entry "/r/B/y" "B"]); (ok_env 2, []); (ok_env 3, [sample_entry "/r/C/z" "C"])]
    (ok_env 4) = Ok 3 /\ 3 = 3 mod 2 ^ 64.
Proof.
  split; [reflexivity|].
  apply (write_to_parquet_rows (ok_env 0) (ok_env 4) "/out/a.parquet"
    [(ok_env 1, [sample_entry "/r/A/x" "A"; sample_entry "/r/B/y" "B"]); (ok_env 2, []); (ok_env 3, [sample_entry "/r/C/z" "C"])]).
  reflexivity.
Defined.

(** Rotating writer. *)
Lemma track_directory_rows (env : Env) (w w1 : RotatingParquetWriter) (d : string) :
  track_directory env w d = Ok w1 ->
  total_rows (manifest w1) = total_rows (manifest w) /\ current_writer w1 = current_writer w.
Proof.
  unfold track_directory. intros H.
  destruct (last_top_level_dir w) as [d_prev|].
  - destruct (String.eqb d_prev d).
    + injection H as <-. split; reflexivity.
    + inv_bind H. injection H as <-. simpl. split; [|reflexivity].
      unfold complete_current_directory. destruct (current_top_level_dir (manifest w)); reflexivity.
  - injection H as <-. split; reflexivity.
Qed.

Lemma rotate_rows (env : Env) (t : N) (w w' : RotatingParquetWriter) :
  rotate env t w = Ok w' -> rows_accounted w' = rows_accounted w.
Proof.
  intros H. destruct (rotate_spec env t w w' H) as (p & _ & Hw & _ & _ & _ & Hc).
  unfold rows_accounted, pending. rewrite Hw. simpl.
  destruct (current_writer w) as [pw|].
  - destruct Hc as (p0 & q & _ & -> & _). simpl. rewrite N.add_0_r. apply N.Div0.mod_mod.
  - destruct Hc as (_ & -> & _). reflexivity.
Qed.

Lemma write_batch_rows (env : Env) (w w' : RotatingParquetWriter) (b : list FileEntry) :
  write_batch env w b = Ok w' ->
  rows_accounted w' = (rows_accounted w + N.of_nat (length b)) mod 2 ^ 64.
Proof.
  destruct b as [|e rest].
  - simpl. intros [= <-]. rewrite N.add_0_r. symmetry. apply N.Div0.mod_mod.
  - intros H. destruct (write_batch_decomp env w w' e rest H) as (w1 & w2 & w3 & H1 & H2 & H3 & H4).
    assert (E1 : rows_accounted w1 = rows_accounted w).
    { destruct (track_directory_rows _ _ _ _ H1) as [Ht Hc].
      unfold rows_accounted, pending. rewrite Ht, Hc. reflexivity. }
    assert (E2 : rows_accounted w2 = rows_accounted w1).
    { destruct (current_writer w1); [injection H2 as <-; reflexivity|].
      exact (rotate_rows _ _ _ _ H2). }
    assert (E3 : rows_accounted w3 = (rows_accounted w2 + N.of_nat (length (e :: rest))) mod 2 ^ 64).
    { destruct (ensure_writer_spec _ _ _ H2) as (pw & _ & Hcw & _).
      destruct (write_current_spec _ _ _ _ _ _ Hcw H3) as (_ & _ & Hw3 & _ & _ & Hm & _).
      unfold rows_accounted, pending. rewrite Hw3, Hcw, Hm. simpl. unfold u64_wrap.
      rewrite wrap_add_r, wrap_add_l. f_equal. lia. }
    assert (E4 : rows_accounted w' = rows_accounted w3).
    { destruct (should_rotate env w3); [exact (rotate_rows _ _ _ _ H4)|injection H4 as <-; reflexivity]. }
    rewrite E4, E3, E2, E1. reflexivity.
Qed.

Lemma write_all_rows (w w' : RotatingParquetWriter) (steps : list (Env * list FileEntry)) :
  write_all w steps = Ok w' ->
  rows_accounted w' = (rows_accounted w + steps_rows steps) mod 2 ^ 64.
Proof.
  revert w. induction steps as [|[env b] rest IH]; intros w H; simpl in H.
  - injection H as <-. rewrite N.add_0_r. symmetry. apply N.Div0.mod_mod.
  - inv_bind H. rewrite (IH a H), (write_batch_rows _ _ _ _ Ha), wrap_add_l.
    simpl. f_equal. lia.
Qed.

Lemma finalize_rows (env : Env) (w : RotatingParquetWriter) (m : ScanManifest) (log : list Event) :
  total_rows (manifest w) < 2 ^ 64 ->
  finalize env w = Ok (m, log) -> total_rows m = rows_accounted w.
Proof.
  intros Hlt H. unfold finalize in H. unfold rows_accounted, pending.
  destruct (current_writer w) as [pw|].
  - inv_bind H. inv_bind Ha. inv_bind Ha. injection Ha as <-.
    inv_bind H. destruct (save_ok env); [|discriminate]. injection H as <- _. reflexivity.
  - simpl in H. inv_bind H. destruct (save_ok env); [|discriminate]. injection H as <- _.
    simpl. rewrite N.add_0_r, N.mod_small; [reflexivity|exact Hlt].
Qed.

Lemma rotate_rows_bound (env : Env) (t : N) (w w' : RotatingParquetWriter) :
  total_rows (manifest w) < 2 ^ 64 -> rotate env t w = Ok w' -> total_rows (manifest w') < 2 ^ 64.
Proof.
  intros Hlt H. destruct (rotate_spec env t w w' H) as (p & _ & _ & _ & _ & _ & Hc).
  destruct (current_writer w) as [pw|].
  - destruct Hc as (p0 & q & _ & -> & _). simpl. apply N.mod_lt. lia.
  - destruct Hc as (_ & -> & _). exact Hlt.
Qed.

Lemma write_batch_rows_bound (env : Env) (w w' : RotatingParquetWriter) (b : list FileEntry) :
  total_rows (manifest w) < 2 ^ 64 -> write_batch env w b = Ok w' ->
  total_rows (manifest w') < 2 ^ 64.
Proof.
  intros Hlt. destruct b as [|e rest]; [intros [= <-]; exact Hlt|].
  intros H. destruct (write_batch_decomp env w w' e rest H) as (w1 & w2 & w3 & H1 & H2 & H3 & H4).
  destruct (track_directory_rows _ _ _ _ H1) as [Ht _].
  assert (B2 : total_rows (manifest w2) < 2 ^ 64).
  { destruct (ensure_writer_spec _ _ _ H2) as (pw & _ & _ & _ & _ & _ & Hm & _).
    rewrite Hm, Ht. exact Hlt. }
  assert (B3 : total_rows (manifest w3) < 2 ^ 64).
  { destruct (ensure_writer_spec _ _ _ H2) as (pw & _ & Hcw & _).
    destruct (write_current_spec _ _ _ _ _ _ Hcw H3) as (_ & _ & _ & _ & _ & Hm & _).
    rewrite Hm. exact B2. }
  destruct (should_rotate env w3); [exact (rotate_rows_bound _ _ _ _ B3 H4)|injection H4 as <-; exact B3].
Qed.

Lemma write_all_rows_bound (w w' : RotatingParquetWriter) (steps : list (Env * list FileEntry)) :
  total_rows (manifest w) < 2 ^ 64 -> write_all w steps = Ok w' ->
  total_rows (manifest w') < 2 ^ 64.
Proof.
  revert w. induction steps as [|[env b] rest IH]; intros w Hlt H; simpl in H.
  - injection H as <-. exact Hlt.
  - inv_bind H. exact (IH a (write_batch_rows_bound _ _ _ _ Hlt Ha) H).
Qed.

(** X6: when the rotating writer's [consume_batches] succeeds, the final
    manifest's [total_rows] is the starting total, plus the rows of the chunk
    that was open, plus the entries of all batches received, modulo [2^64]:
    no row is lost or counted twice across rotations and the finalize. *)
Theorem consume_batches_total_rows (w : RotatingParquetWriter) (steps : list (Env * list FileEntry))
    (final_env : Env) (m : ScanManifest) (log : list Event) :
  total_rows (manifest w) < 2 ^ 64 ->
  consume_batches w steps final_env = Ok (m, log) ->
  total_rows m = (total_rows (manifest w) + pending w + steps_rows steps) mod 2 ^ 64.
Proof.
  intros Hlt H. unfold consume_batches in H. inv_bind H.
  rewrite (finalize_rows _ _ _ _ (write_all_rows_bound _ _ _ Hlt Ha) H).
  rewrite (write_all_rows _ _ _ Ha). unfold rows_accounted. apply wrap_add_l.
Qed.

Theorem consume_batches_total_rows_witness :
  exists m log,
    consume_batches (fresh_writer 2)
      [(ok_env 1, [sample_entry "/r/A/x" "A"; sample_entry "/r/A/x" "A"; sample_entry "/r/A/x" "A"]); (ok_env 2, []);
       (ok_env 3, [sample_entry "/r/B/y" "B"])] (ok_env 4) = Ok (m, log) /\ total_rows m = 4.
Proof.
  destruct (consume_batches (fresh_writer 2)
      [(ok_env 1, [sample_entry "/r/A/x" "A"; sample_entry "/r/A/x" "A"; sample_entry "/r/A/x" "A"]); (ok_env 2, []);
       (ok_env 3, [sample_entry "/r/B/y" "B"])] (ok_env 4)) as [[m log]|e] eqn:E;
    [|vm_compute in E; discriminate E].
  exists m, log. split; [reflexivity|].
  rewrite (consume_batches_total_rows (fresh_writer 2) _ (ok_env 4) m log
             ltac:(vm_compute; reflexivity) E).
  vm_compute. reflexivity.
Defined.

Lemma opened_app (l1 l2 : list Event) : opened (l1 ++ l2) = opened l1 ++ opened l2.
Proof. induction l1 as [|[] l1 IH]; simpl; rewrite ?IH; reflexivity. Qed.

Lemma opened_save_event (env : Env) (q : string) (m : ScanManifest) : opened (save_event env q m) = [].
Proof. unfold save_event. destruct (save_ok env); reflexivity. Qed.

Lemma advance_add (c : N) (d1 d2 : nat) : advance c (d1 + d2) = advance (advance c d1) d2.
Proof. revert c. induction d1 as [|d1 IH]; intros c; simpl; [reflexivity|apply IH]. Qed.

Lemma succs_add (c : N) (d1 d2 : nat) : succs c (d1 + d2) = succs c d1 ++ succs (advance c d1) d2.
Proof. revert c. induction d1 as [|d1 IH]; intros c; simpl; [reflexivity|f_equal; apply IH]. Qed.

Lemma opens_step_trans (w1 w2 w3 : RotatingParquetWriter) (d1 d2 : nat) :
  opens_step w1 w2 d1 -> opens_step w2 w3 d2 -> opens_step w1 w3 (d1 + d2).
Proof.
  intros (Hc1 & Hk1 & evs1 & Hl1 & Hf1 & Hp1) (Hc2 & Hk2 & evs2 & Hl2 & Hf2 & Hp2).
  split; [congruence|]. split; [rewrite Hk2, Hk1, advance_add; reflexivity|].
  exists (evs1 ++ evs2). split; [rewrite Hl2, Hl1, app_assoc; reflexivity|].
  rewrite opened_app, map_app, Hf1, Hf2, Hk1, succs_add. split; [reflexivity|].
  apply Forall_app. split; [exact Hp1|]. rewrite <- Hc1. exact Hp2.
Qed.

Lemma opens_step_none (w w' : RotatingParquetWriter) (evs : list Event) :
  config w' = config w -> current_chunk w' = current_chunk w ->
  io_log w' = io_log w ++ evs -> opened evs = [] -> opens_step w w' 0.
Proof.
  intros Hc Hk Hl Ho. split; [exact Hc|]. split; [exact Hk|].
  exists evs. rewrite Ho. repeat split; [exact Hl|constructor].
Qed.

Lemma opens_step_same (w w' : RotatingParquetWriter) :
  config w' = config w -> current_chunk w' = current_chunk w ->
  io_log w' = io_log w -> opens_step w w' 0.
Proof.
  intros Hc Hk Hl. apply (opens_step_none w w' []); try assumption; [|reflexivity].
  rewrite app_nil_r. exact Hl.
Qed.

Lemma rotate_opens (env : Env) (t : N) (w w' : RotatingParquetWriter) :
  rotate env t w = Ok w' -> opens_step w w' 1.
Proof.
  unfold rotate. intros H. inv_bind H.
  assert (Hw1 : config a = config w /\ current_chunk a = current_chunk w /\
                exists evs, io_log a = io_log w ++ evs /\ opened evs = []).
  { destruct (current_writer w) as [pw|].
    - unfold close_chunk in Ha. inv_bind Ha. inv_bind Ha. inv_bind Ha. injection Ha as <-.
      simpl. repeat split; try reflexivity. eexists. split; [reflexivity|].
      simpl. apply opened_save_event.
    - injection Ha as <-. repeat split; try reflexivity. exists []. rewrite app_nil_r. split; reflexivity. }
  destruct Hw1 as (Hc & Hk & evs & Hl & Ho).
  simpl in H. inv_bind H. inv_bind H. injection H as <-.
  split; [exact Hc|]. simpl. rewrite Hk. split; [reflexivity|].
  exists (evs ++ [EvOpen (u64_wrap (current_chunk w + 1)) a0]).
  rewrite Hl, <- app_assoc. split; [reflexivity|].
  rewrite opened_app, Ho. simpl. split; [reflexivity|].
  constructor; [|constructor]. simpl. rewrite <- Hc, <- Hk. exact Ha0.
Qed.

Lemma track_directory_opens (env : Env) (w w1 : RotatingParquetWriter) (d : string) :
  track_directory env w d = Ok w1 -> opens_step w w1 0.
Proof.
  unfold track_directory. intros H.
  destruct (last_top_level_dir w) as [d_prev|].
  - destruct (String.eqb d_prev d).
    + injection H as <-. apply opens_step_same; reflexivity.
    + inv_bind H. injection H as <-.
      eapply (opens_step_none _ _ (save_event env a _)); try reflexivity. apply opened_save_event.
  - injection H as <-. apply opens_step_same; reflexivity.
Qed.

Lemma write_current_opens (env : Env) (w w' : RotatingParquetWriter) (b : list FileEntry) :
  write_current env w b = Ok w' -> opens_step w w' 0.
Proof.
  unfold write_current. intros H. destruct (current_writer w) as [pw|].
  - inv_bind H. injection H as <-. apply (opens_step_none _ _ [EvWrite (current_chunk w) (N.of_nat (length b))]); reflexivity.
  - injection H as <-. apply opens_step_same; reflexivity.
Qed.

Lemma write_batch_opens (env : Env) (w w' : RotatingParquetWriter) (b : list FileEntry) :
  write_batch env w b = Ok w' -> exists d, (d <= 2)%nat /\ opens_step w w' d.
Proof.
  destruct b as [|e rest].
  - intros [= <-]. exists O. split; [lia|]. apply opens_step_same; reflexivity.
  - intros H. destruct (write_batch_decomp env w w' e rest H) as (w1 & w2 & w3 & H1 & H2 & H3 & H4).
    apply track_directory_opens in H1. apply write_current_opens in H3.
    assert (E2 : exists d2, (d2 <= 1)%nat /\ opens_step w1 w2 d2).
    { destruct (current_writer w1).
      - injection H2 as <-. exists O. split; [lia|]. apply opens_step_same; reflexivity.
      - exists 1%nat. split; [lia|]. exact (rotate_opens _ _ _ _ H2). }
    assert (E4 : exists d4, (d4 <= 1)%nat /\ opens_step w3 w' d4).
    { destruct (should_rotate env w3).
      - exists 1%nat. split; [lia|]. exact (rotate_opens _ _ _ _ H4).
      - injection H4 as <-. exists O. split; [lia|]. apply opens_step_same; reflexivity. }
    destruct E2 as (d2 & Hd2 & E2). destruct E4 as (d4 & Hd4 & E4).
    exists (0 + d2 + 0 + d4)%nat. split; [lia|].
    eapply opens_step_trans; [|exact E4]. eapply opens_step_trans; [|exact H3].
    eapply opens_step_trans; [exact H1|exact E2].
Qed.

Lemma write_all_opens (w w' : RotatingParquetWriter) (steps : list (Env * list FileEntry)) :
  write_all w steps = Ok w' -> exists d, (d <= 2 * length steps)%nat /\ opens_step w w' d.
Proof.
  revert w. induction steps as [|[env b] rest IH]; intros w H; simpl in H.
  - injection H as <-. exists O. split; [lia|]. apply opens_step_same; reflexivity.
  - inv_bind H. destruct (write_batch_opens _ _ _ _ Ha) as (d1 & Hd1 & E1).
    destruct (IH a H) as (d2 & Hd2 & E2).
    exists (d1 + d2)%nat. split; [simpl; lia|]. exact (opens_step_trans _ _ _ _ _ E1 E2).
Qed.

Lemma succs_no_wrap (c : N) (d : nat) :
  c + N.of_nat d < 2 ^ 64 ->
  NoDup (succs c d) /\ Forall (fun k => c < k /\ k <= c + N.of_nat d) (succs c d).
Proof.
  revert c. induction d as [|d IH]; intros c Hlt; simpl.
  - split; constructor.
  - unfold u64_wrap. rewrite N.mod_small by lia.
    destruct (IH (c + 1)) as [Hn Hf]; [lia|].
    split.
    + constructor; [|exact Hn]. intros Hin. apply list_elem_of_In in Hin. rewrite List.Forall_forall in Hf.
      specialize (Hf _ Hin). lia.
    + constructor; [lia|]. eapply Forall_impl; [exact Hf|]. simpl. intros k Hk. lia.
Qed.

Lemma nodup_paths (cfg : RotatingWriterConfig) (l : list (N * string)) :
  NoDup (map fst l) -> Forall (fun kp => kp.1 < 2 ^ 64) l ->
  Forall (fun kp => get_chunk_path cfg kp.1 = Ok kp.2) l -> NoDup (map snd l).
Proof.
  induction l as [|[k p] l IH]; intros Hn Hb Hp; simpl; [constructor|].
  inversion Hn as [|? ? Hnin Hn']; subst. inversion Hb as [|? ? Hb1 Hb']; subst.
  inversion Hp as [|? ? Hp1 Hp']; subst.
  constructor; [|exact (IH Hn' Hb' Hp')].
  intros Hin. apply list_elem_of_In, in_map_iff in Hin as ([k' p'] & Heq & Hin). simpl in Heq. subst p'.
  rewrite List.Forall_forall in Hb', Hp'.
  pose proof (Hb' _ Hin) as Hb2. pose proof (Hp' _ Hin) as Hp2. simpl in *.
  assert (k = k') by exact (chunk_path_inj cfg k k' p Hb1 Hb2 Hp1 Hp2). subst k'.
  apply Hnin, list_elem_of_In, in_map_iff. exists (k, p). split; [reflexivity|exact Hin].
Qed.

(** X7: while the chunk counter does not wrap, the chunk files opened while
    a sequence of batches is written all have distinct paths, each the chunk
    path of a number above the starting chunk number, and none is the
    manifest path. *)
Theorem write_all_opens_distinct_chunks (w w' : RotatingParquetWriter)
    (steps : list (Env * list FileEntry)) :
  current_chunk w + 2 * N.of_nat (length steps) < 2 ^ 64 ->
  write_all w steps = Ok w' ->
  exists evs, io_log w' = io_log w ++ evs /\
    NoDup (map snd (opened evs)) /\
    Forall (fun kp => current_chunk w < kp.1 /\ get_chunk_path (config w) kp.1 = Ok kp.2 /\
                      get_manifest_path (config w) <> Ok kp.2) (opened evs).
Proof.
  intros Hlt H. destruct (write_all_opens _ _ _ H) as (d & Hd & _ & _ & evs & Hl & Hf & Hp).
  destruct (succs_no_wrap (current_chunk w) d) as [Hn Hr]; [lia|].
  rewrite <- Hf in Hn, Hr. rewrite Forall_map in Hr.
  exists evs. split; [exact Hl|]. split.
  - apply (nodup_paths (config w)); [exact Hn| |exact Hp].
    eapply Forall_impl; [exact Hr|]. simpl. intros kp Hk. lia.
  - rewrite List.Forall_forall in Hr, Hp |- *. intros kp Hin.
    specialize (Hr _ Hin). specialize (Hp _ Hin). split; [lia|]. split; [exact Hp|].
    exact (chunk_path_not_manifest _ _ _ Hp).
Qed.

Lemma write_all_opens_distinct_chunks_witness :
  exists w', write_all (fresh_writer 2) wsteps = Ok w' /\
  exists evs, io_log w' = io_log (fresh_writer 2) ++ evs /\
    NoDup (map snd (opened evs)) /\
    Forall (fun kp => current_chunk (fresh_writer 2) < kp.1 /\
                      get_chunk_path (config (fresh_writer 2)) kp.1 = Ok kp.2 /\
                      get_manifest_path (config (fresh_writer 2)) <> Ok kp.2) (opened evs).
Proof.
  destruct (write_all (fresh_writer 2) wsteps) as [w'|er] eqn:E; [|vm_compute in E; discriminate E].
  exists w'. split; [reflexivity|].
  exact (write_all_opens_distinct_chunks (fresh_writer 2) w' wsteps ltac:(vm_compute; reflexivity) E).
Defined.

Lemma process_entry_sent (root : string) (sd : option (gset string)) (c c1 : Counters)
    (item : WalkItem) (e : FileEntry) :
  process_entry root sd c item = (c1, Some e) ->
  (exists p md, item = WalkOk p (Some md) /\ from_path p md root = Ok e) /\
  (forall s, sd = Some s -> top_level_dir e ∉ s).
Proof.
  destruct item as [p [md|]|]; simpl; try (intros [= _ _]; fail).
  destruct (from_path p md root) as [e0|er] eqn:Hf; [|intros [= _ _]].
  destruct sd as [s|].
  - destruct (decide (top_level_dir e0 ∈ s)) as [Hin|Hnin]; [intros [= _ _]|].
    destruct (md_is_dir md); intros [= _ <-];
      (split; [eauto|intros s' [= <-]; exact Hnin]).
  - destruct (md_is_dir md); intros [= _ <-]; (split; [eauto|intros s' [=]]).
Qed.

(** X8: every entry the walker closure sends to the batching thread was
    built by [from_path] from a walker item with readable metadata, and its
    top-level directory is not in the skip set. *)
Theorem scan_items_sent (root : string) (sd : option (gset string)) (c c' : Counters)
    (items : list WalkItem) (es : list FileEntry) :
  scan_items root sd c items = (c', es) ->
  forall e, In e es ->
    (exists p md, In (WalkOk p (Some md)) items /\ from_path p md root = Ok e) /\
    (forall s, sd = Some s -> top_level_dir e ∉ s).
Proof.
  revert c c' es. induction items as [|item rest IH]; intros c c' es H e Hin; simpl in H.
  - injection H as _ <-. destruct Hin.
  - destruct (process_entry root sd c item) as [c1 sent] eqn:Hp.
    destruct (scan_items root sd c1 rest) as [c2 es2] eqn:Hs.
    injection H as _ <-.
    assert (Hrest : In e es2 ->
      (exists p md, In (WalkOk p (Some md)) (item :: rest) /\ from_path p md root = Ok e) /\
      (forall s, sd = Some s -> top_level_dir e ∉ s)).
    { intros Hin2. destruct (IH c1 c2 es2 Hs e Hin2) as [(p & md & Hi & Hf) Hk].
      split; [exists p, md; split; [right; exact Hi|exact Hf]|exact Hk]. }
    destruct sent as [e0|]; [|exact (Hrest Hin)].
    destruct Hin as [<-|Hin]; [|exact (Hrest Hin)].
    destruct (process_entry_sent _ _ _ _ _ _ Hp) as [(p & md & -> & Hf) Hk].
    split; [exists p, md; split; [left; reflexivity|exact Hf]|exact Hk].
Qed.

Lemma process_entry_counts (root : string) (sd : option (gset string)) (c c1 : Counters)
    (item : WalkItem) (sent : option FileEntry) :
  counted c + 1 < 2 ^ 64 ->
  process_entry root sd c item = (c1, sent) ->
  counted c1 = counted c + 1 /\
  files c1 + dirs c1 = files c + dirs c + match sent with Some _ => 1 | None => 0 end.
Proof.
  unfold counted. intros Hlt.
  destruct item as [p [md|]|]; cbn [process_entry].
  2, 3: intros [= <- <-]; cbn [files dirs errors skipped bytes]; unfold u64_wrap;
        rewrite N.mod_small by lia; split; lia.
  destruct (from_path p md root) as [e0|er];
    [|intros [= <- <-]; cbn [files dirs errors skipped bytes]; unfold u64_wrap;
      rewrite N.mod_small by lia; split; lia].
  destruct sd as [s|]; [destruct (decide (top_level_dir e0 ∈ s))|];
    try (destruct (md_is_dir md)); intros [= <- <-]; cbn [files dirs errors skipped bytes];
    unfold u64_wrap; rewrite N.mod_small by lia; split; lia.
Qed.

(** X9: while the counters do not overflow, each walker item increments
    exactly one of [files], [dirs], [errors] and [skipped], and
    [files + dirs] grows by the number of entries sent. *)
Theorem scan_items_counts (root : string) (sd : option (gset string)) (c c' : Counters)
    (items : list WalkItem) (es : list FileEntry) :
  counted c + N.of_nat (length items) < 2 ^ 64 ->
  scan_items root sd c items = (c', es) ->
  counted c' = counted c + N.of_nat (length items) /\
  files c' + dirs c' = files c + dirs c + N.of_nat (length es).
Proof.
  revert c c' es. induction items as [|item rest IH]; intros c c' es Hlt H; simpl in H.
  - injection H as <- <-. simpl. split; lia.
  - destruct (process_entry root sd c item) as [c1 sent] eqn:Hp.
    destruct (scan_items root sd c1 rest) as [c2 es2] eqn:Hs.
    injection H as <- <-. simpl in Hlt.
    destruct (process_entry_counts root sd c c1 item sent ltac:(lia) Hp) as [H1 H2].
    destruct (IH c1 c2 es2 ltac:(rewrite Nat2N.inj_succ in Hlt; unfold counted in *; lia) Hs) as [H3 H4].
    simpl. split; [lia|]. destruct sent; simpl; lia.
Qed.

Lemma scan_items_sent_witness :
  exists c' es, scan_items "/r" (Some ({["B"%string]} : gset string)) zero_counters witems = (c', es) /\
  forall e, In e es ->
    (exists p md, In (WalkOk p (Some md)) witems /\ from_path p md "/r" = Ok e) /\
    (forall s, Some ({["B"%string]} : gset string) = Some s -> top_level_dir e ∉ s).
Proof.
  destruct (scan_items "/r" (Some ({["B"%string]} : gset string)) zero_counters witems) as [c' es] eqn:E.
  exists c', es. split; [reflexivity|]. exact (scan_items_sent _ _ _ _ _ _ E).
Defined.

Lemma scan_items_counts_witness :
  exists c' es, scan_items "/r" (Some ({["B"%string]} : gset string)) zero_counters witems = (c', es) /\
  counted c' = counted zero_counters + N.of_nat (length witems) /\
  files c' + dirs c' = files zero_counters + dirs zero_counters + N.of_nat (length es).
Proof.
  destruct (scan_items "/r" (Some ({["B"%string]} : gset string)) zero_counters witems) as [c' es] eqn:E.
  exists c', es. split; [reflexivity|].
  exact (scan_items_counts "/r" (Some ({["B"%string]} : gset string)) zero_counters c' witems es
           ltac:(vm_compute; reflexivity) E).
Defined.

Lemma split_slash_no_slash (x : string) : no_slash x = true -> split_slash x = [x].
Proof.
  induction x as [|c x IH]; [reflexivity|].
  unfold no_slash. simpl. intros H. apply andb_prop in H as [Hc Hx].
  destruct (Ascii.eqb c "/"%char); [discriminate Hc|]. rewrite IH by exact Hx. reflexivity.
Qed.

Lemma split_slash_sep (a b : string) :
  no_slash a = true -> split_slash (a +:+ String "/" b) = a :: split_slash b.
Proof.
  induction a as [|c a IH]; [reflexivity|].
  unfold no_slash. simpl. intros H. apply andb_prop in H as [Hc Hx].
  change (String c a +:+ String "/" b)%string with (String c (a +:+ String "/" b)).
  simpl. destruct (Ascii.eqb c "/"%char); [discriminate Hc|]. rewrite IH by exact Hx. reflexivity.
Qed.

Lemma join_slash_cons (x y : string) (r : list string) :
  join_slash (x :: y :: r) = (x +:+ String "/" (join_slash (y :: r)))%string.
Proof. reflexivity. Qed.

Lemma good_seg_no_slash (s : string) : good_seg s = true -> no_slash s = true.
Proof. unfold good_seg. intros H. repeat (apply andb_prop in H as [H _]). exact H. Qed.

Lemma split_slash_join (segs : list string) :
  segs <> [] -> Forall (fun s => good_seg s = true) segs -> split_slash (join_slash segs) = segs.
Proof.
  induction segs as [|x [|y r] IH]; intros Hne Hg; [congruence| |].
  - inversion Hg; subst. simpl. apply split_slash_no_slash, good_seg_no_slash. assumption.
  - inversion Hg; subst. rewrite join_slash_cons, split_slash_sep by (apply good_seg_no_slash; assumption).
    f_equal. apply IH; [discriminate|assumption].
Qed.

Lemma body_components_good (segs : list string) :
  Forall (fun s => good_seg s = true) segs -> body_components segs = map Normal segs.
Proof.
  induction segs as [|s r IH]; intros Hg; [reflexivity|].
  inversion Hg as [|? ? Hs Hr]; subst. unfold good_seg in Hs.
  apply andb_prop in Hs as [Hs H3]. apply andb_prop in Hs as [Hs H2]. apply andb_prop in Hs as [_ H1].
  apply negb_true_iff in H1, H2, H3. simpl. rewrite H1, H2, H3, IH by exact Hr. reflexivity.
Qed.

Lemma components_abs (segs : list string) :
  Forall (fun s => good_seg s = true) segs ->
  components ("/" +:+ join_slash segs)%string = RootDir :: map Normal segs.
Proof.
  intros Hg. change ("/" +:+ join_slash segs)%string with (String "/" (join_slash segs)).
  unfold components. simpl. f_equal.
  destruct segs as [|s r]; [reflexivity|].
  rewrite split_slash_join by (discriminate || exact Hg). apply body_components_good, Hg.
Qed.

Lemma iter_after_normal (r s : list string) :
  iter_after (map Normal (r ++ s)) (map Normal r) = Some (map Normal s).
Proof.
  induction r as [|x r IH]; simpl.
  - destruct s; reflexivity.
  - rewrite String.eqb_refl. exact IH.
Qed.

Lemma last_cons_some {A} (x : A) (l : list A) : last (x :: l) <> None.
Proof.
  revert x. induction l as [|y l IH]; intros x; [discriminate|].
  change (last (x :: y :: l)) with (last (y :: l)). apply IH.
Qed.

Lemma last_component_normal (c : Component) (l : list string) :
  last_component (c :: map Normal l) = match last l with Some x => Some (Normal x) | None => Some c end.
Proof.
  revert c. induction l as [|x l IH]; intros c; [reflexivity|].
  change (last_component (c :: Normal x :: map Normal l) = match last (x :: l) with Some x => Some (Normal x) | None => Some c end).
  change (last_component (c :: Normal x :: map Normal l)) with (last_component (Normal x :: map Normal l)).
  rewrite IH. destruct l as [|y l]; [reflexivity|].
  change (last (x :: y :: l)) with (last (y :: l)).
  destruct (last (y :: l)) eqn:Hy; [reflexivity|]. exfalso. exact (last_cons_some y l Hy).
Qed.

Lemma removelast_map_normal (l : list string) :
  removelast (map Normal l) = map Normal (removelast l).
Proof. induction l as [|x [|y r] IH]; [reflexivity|reflexivity|]. simpl in *. rewrite IH. reflexivity. Qed.

Lemma map_comp_str_normal (l : list string) : map comp_str (map Normal l) = l.
Proof. induction l as [|x l IH]; simpl; [reflexivity|rewrite IH; reflexivity]. Qed.

(** X10: for a root [/r1/../rk] and an entry [/r1/../rk/s1/../sn] written
    with plain segments, [from_path] gives depth [n] (as a [u32]), top-level
    directory [s1] (for the root itself: its last segment, or ["root"] for
    [/]), and as parent path the entry's path without its last segment
    (["/"] for [/]). *)
Theorem from_path_layout (rsegs segs : list string) (md : Metadata) (e : FileEntry) :
  Forall (fun s => good_seg s = true) (rsegs ++ segs) ->
  from_path ("/" +:+ join_slash (rsegs ++ segs))%string md ("/" +:+ join_slash rsegs)%string = Ok e ->
  depth e = u32_wrap (N.of_nat (length segs)) /\
  top_level_dir e = match segs with
                    | s :: _ => s
                    | [] => match last rsegs with Some x => x | None => "root"%string end
                    end /\
  parent_path e = match rsegs ++ segs with
                  | [] => "/"%string
                  | l => ("/" +:+ join_slash (removelast l))%string
                  end.
Proof.
  intros Hg H. pose proof Hg as Hr. apply Forall_app in Hr as [Hr _].
  unfold from_path in H.
  inv_bind H. inv_bind H. inv_bind H. inv_bind H. injection H as <-. cbn [depth top_level_dir parent_path].
  unfold strip_prefix, parent, file_name.
  rewrite (components_abs _ Hg), (components_abs _ Hr). simpl iter_after.
  rewrite iter_after_normal, length_map. split; [reflexivity|]. split.
  - destruct segs as [|s r]; [|reflexivity]. cbn [map]. rewrite last_component_normal.
    destruct (last rsegs); reflexivity.
  - rewrite last_component_normal. destruct (rsegs ++ segs) as [|x l] eqn:Hl; [reflexivity|].
    destruct (last (x :: l)) eqn:Hlast; [|exfalso; exact (last_cons_some x l Hlast)].
    change (removelast (RootDir :: map Normal (x :: l))) with (RootDir :: removelast (map Normal (x :: l))).
    unfold render. rewrite removelast_map_normal, map_comp_str_normal. reflexivity.
Qed.

Lemma from_path_layout_witness :
  exists e, from_path "/r/A/b/c.txt" (file_metadata None) "/r" = Ok e /\
  depth e = u32_wrap (N.of_nat (length ["A"; "b"; "c.txt"]%string)) /\
  top_level_dir e = "A"%string /\ parent_path e = "/r/A/b"%string.
Proof.
  destruct (from_path "/r/A/b/c.txt" (file_metadata None) "/r") as [e|er] eqn:E;
    [|vm_compute in E; discriminate E].
  exists e. split; [reflexivity|].
  exact (from_path_layout ["r"%string] ["A"; "b"; "c.txt"]%string (file_metadata None) e
           ltac:(vm_compute; repeat constructor) E).
Defined.

(** String basics *)
Lemma str_app_assoc (a b c : string) : ((a +:+ b) +:+ c)%string = (a +:+ (b +:+ c))%string.
Proof. induction a as [|x a IH]; [reflexivity|]. rewrite !app_cons, IH. reflexivity. Qed.

Lemma str_app_nil_r (a : string) : (a +:+ "")%string = a.
Proof. induction a as [|x a IH]; [reflexivity|]. rewrite app_cons, IH. reflexivity. Qed.

Lemma str_length_app (a b : string) : String.length (a +:+ b) = (String.length a + String.length b)%nat.
Proof. induction a as [|x a IH]; [reflexivity|]. rewrite app_cons. simpl. rewrite IH. reflexivity. Qed.

Lemma substring_app (x y : string) (k m : nat) :
  String.substring (String.length x + k) m (x +:+ y) = String.substring k m y.
Proof. induction x as [|c x IH]; [reflexivity|]. rewrite app_cons. simpl. exact IH. Qed.

Lemma substring_full (y : string) : String.substring 0 (String.length y) y = y.
Proof. induction y as [|c y IH]; [reflexivity|]. simpl. rewrite IH. reflexivity. Qed.

Lemma ends_with_app (x y : string) : ends_with (x +:+ y) y = true.
Proof.
  unfold ends_with. rewrite str_length_app.
  replace (String.length x + String.length y - String.length y)%nat with (String.length x + 0)%nat by lia.
  rewrite substring_app, substring_full, String.eqb_refl, andb_true_r.
  apply Nat.leb_le. lia.
Qed.

Lemma prefix_nil (s : string) : String.prefix "" s = true.
Proof. destruct s; reflexivity. Qed.

Lemma prefix_app (x y : string) : String.prefix x (x +:+ y) = true.
Proof.
  induction x as [|c x IH]; [apply prefix_nil|]. rewrite app_cons. simpl.
  destruct (ascii_dec c c) as [_|n]; [exact IH|contradiction].
Qed.

Lemma contains_app_r (x y pat : string) : contains y pat = true -> contains (x +:+ y) pat = true.
Proof.
  intros H. induction x as [|c x IH]; [exact H|]. rewrite app_cons. simpl. rewrite IH. apply orb_true_r.
Qed.

Lemma prefix_app_sep (pat x b : string) :
  no_underscore pat = true -> String.prefix pat (x +:+ String "_" b) = String.prefix pat x.
Proof.
  revert pat. induction x as [|c x IH]; intros pat Hp.
  - destruct pat as [|a pat]; [rewrite !prefix_nil; reflexivity|]. unfold no_underscore in Hp. simpl in Hp.
    apply andb_prop in Hp as [Ha _]. simpl.
    destruct (ascii_dec a "_"%char) as [->|]; [discriminate Ha|reflexivity].
  - destruct pat as [|a pat]; [rewrite !prefix_nil; reflexivity|]. rewrite app_cons. simpl.
    destruct (ascii_dec a c); [|reflexivity]. apply IH.
    unfold no_underscore in Hp |- *. simpl in Hp. apply andb_prop in Hp as [_ Hp]. exact Hp.
Qed.

Lemma contains_app_sep (pat x b : string) :
  pat <> ""%string -> no_underscore pat = true ->
  contains (x +:+ String "_" b) pat = contains x pat || contains (String "_" b) pat.
Proof.
  intros Hne Hp. induction x as [|c x IH].
  - destruct pat; [congruence|]. reflexivity.
  - rewrite app_cons. change (contains (String c (x +:+ String "_" b)) pat)
      with (String.prefix pat (String c (x +:+ String "_" b)) || contains (x +:+ String "_" b) pat).
    rewrite <- app_cons, prefix_app_sep by exact Hp. rewrite IH. simpl. apply orb_assoc.
Qed.

Lemma no_m_contains (s t : string) :
  Forall (fun c => c <> "m"%char) (list_ascii_of_string s) -> contains s (String "m" t) = false.
Proof.
  induction s as [|c s IH]; intros H; [reflexivity|].
  inversion H as [|? ? Hc Hs]; subst.
  change (contains (String c s) (String "m" t))
    with ((if ascii_dec "m" c then String.prefix t s else false) || contains s (String "m" t)).
  destruct (ascii_dec "m" c) as [<-|]; [congruence|]. exact (IH Hs).
Qed.

Lemma digits_not_m (s : string) :
  Forall (fun c => is_digit c = true) (list_ascii_of_string s) ->
  Forall (fun c => c <> "m"%char) (list_ascii_of_string s).
Proof. intros H. eapply Forall_impl; [exact H|]. intros c Hc ->. discriminate Hc. Qed.

Lemma no_slash_app (x y : string) : no_slash (x +:+ y) = no_slash x && no_slash y.
Proof. unfold no_slash. rewrite list_ascii_app. apply forallb_app. Qed.

Lemma digits_no_slash (s : string) :
  Forall (fun c => is_digit c = true) (list_ascii_of_string s) -> no_slash s = true.
Proof.
  unfold no_slash. induction 1 as [|c l Hc _ IH]; [reflexivity|]. simpl. rewrite IH, andb_true_r.
  destruct (Ascii.eqb_spec c "/"%char) as [->|]; [discriminate Hc|reflexivity].
Qed.

(** Paths *)
Lemma split_slash_nonnil (s : string) : split_slash s <> [].
Proof.
  destruct s as [|c s]; [discriminate|]. simpl.
  destruct (Ascii.eqb c "/"%char); [discriminate|]. destruct (split_slash s); discriminate.
Qed.

Lemma split_slash_app_sep (a b : string) :
  split_slash (a +:+ String "/" b) = split_slash a ++ split_slash b.
Proof.
  induction a as [|c a IH]; [reflexivity|]. rewrite app_cons. simpl.
  destruct (Ascii.eqb c "/"%char).
  - rewrite IH. reflexivity.
  - rewrite IH. pose proof (split_slash_nonnil a) as Hn.
    destruct (split_slash a); [congruence|]. reflexivity.
Qed.

Lemma body_components_app (l1 l2 : list string) :
  body_components (l1 ++ l2) = body_components l1 ++ body_components l2.
Proof.
  induction l1 as [|s l1 IH]; [reflexivity|]. simpl.
  destruct (String.eqb s ""); [exact IH|]. destruct (String.eqb s "."); [exact IH|].
  destruct (String.eqb s ".."); simpl; rewrite IH; reflexivity.
Qed.

Lemma body_components_one (name : string) :
  good_seg name = true -> body_components [name] = [Normal name].
Proof.
  intros Hs. unfold good_seg in Hs.
  apply andb_prop in Hs as [Hs H3]. apply andb_prop in Hs as [Hs H2]. apply andb_prop in Hs as [_ H1].
  apply negb_true_iff in H1, H2, H3. simpl. rewrite H1, H2, H3. reflexivity.
Qed.

Lemma good_seg_not_dot (name : string) : good_seg name = true -> String.eqb name "." = false.
Proof.
  unfold good_seg. intros Hs.
  apply andb_prop in Hs as [Hs _]. apply andb_prop in Hs as [_ H2]. apply negb_true_iff in H2. exact H2.
Qed.

Lemma good_seg_nonempty (name : string) : good_seg name = true -> name <> ""%string.
Proof. intros Hs ->. discriminate Hs. Qed.

Lemma components_sep (d name : string) :
  good_seg name = true ->
  exists pre, components (d +:+ String "/" name) = pre ++ [Normal name].
Proof.
  intros Hg.
  assert (Hs : split_slash (d +:+ String "/" name) = split_slash d ++ [name]).
  { rewrite split_slash_app_sep, (split_slash_no_slash name) by (apply good_seg_no_slash, Hg). reflexivity. }
  destruct d as [|c r].
  - exists [RootDir]. change (""%string +:+ String "/" name)%string with (String "/" name).
    change (components (String "/" name)) with (RootDir :: body_components (tail (""%string :: split_slash name))).
    rewrite (split_slash_no_slash name) by (apply good_seg_no_slash, Hg).
    cbn [tail]. rewrite body_components_one by exact Hg. reflexivity.
  - rewrite app_cons in Hs |- *. unfold components.
    pose proof (split_slash_nonnil (String c r)) as Hn.
    destruct (split_slash (String c r)) as [|x xs] eqn:Ex; [congruence|].
    rewrite Hs. simpl app.
    destruct (Ascii.eqb c "/"%char).
    + exists (RootDir :: body_components xs). simpl. rewrite body_components_app, body_components_one by exact Hg.
      reflexivity.
    + destruct (String.eqb x ".").
      * exists (CurDir :: body_components xs). rewrite body_components_app, body_components_one by exact Hg.
        reflexivity.
      * exists (body_components (x :: xs)). change (x :: xs ++ [name]) with ((x :: xs) ++ [name]).
        rewrite body_components_app, body_components_one by exact Hg. reflexivity.
Qed.

Lemma last_component_snoc (pre : list Component) (c : Component) :
  last_component (pre ++ [c]) = Some c.
Proof.
  induction pre as [|x pre IH]; [reflexivity|].
  destruct pre as [|y pre]; [reflexivity|]. exact IH.
Qed.

Lemma last_char_split (d : string) :
  d <> ""%string ->
  exists d0 c, d = (d0 +:+ String c "")%string /\
               String.substring (String.length d - 1) 1 d = String c "".
Proof.
  induction d as [|c0 r IH]; intros Hne; [congruence|].
  destruct r as [|c1 r'].
  - exists ""%string, c0. split; reflexivity.
  - destruct IH as (d0 & c & Hr & Hsub); [discriminate|].
    exists (String c0 d0), c. split; [rewrite app_cons, <- Hr; reflexivity|].
    replace (String.length (String c0 (String c1 r')) - 1)%nat
      with (S (String.length (String c1 r') - 1)) by (simpl; lia).
    exact Hsub.
Qed.

Lemma file_name_join (d name : string) :
  good_seg name = true -> file_name (join d name) = Some name.
Proof.
  intros Hg. unfold file_name. unfold join.
  destruct d as [|c r].
  - assert (Hne := good_seg_nonempty _ Hg).
    destruct name as [|c n]; [congruence|]. unfold components.
    pose proof (good_seg_no_slash _ Hg) as Hns. unfold no_slash in Hns. simpl in Hns.
    apply andb_prop in Hns as [Hc _]. apply negb_true_iff in Hc. rewrite Hc.
    rewrite split_slash_no_slash by (apply good_seg_no_slash, Hg).
    rewrite good_seg_not_dot by exact Hg. rewrite body_components_one by exact Hg. reflexivity.
  - destruct (last_char_split (String c r)) as (d0 & c' & Hd & Hsub); [discriminate|].
    rewrite Hsub. destruct (String.eqb_spec (String c' "") "/").
    + rewrite Hd, str_app_assoc. injection e as ->.
      change (String "/" "" +:+ name)%string with (String "/" name).
      destruct (components_sep d0 name Hg) as [pre ->]. rewrite last_component_snoc. reflexivity.
    + change ("/" +:+ name)%string with (String "/" name).
      destruct (components_sep (String c r) name Hg) as [pre ->]. rewrite last_component_snoc. reflexivity.
Qed.

(** The file stem has no separator. *)
Lemma split_slash_no_slash_all (s : string) : Forall (fun x => no_slash x = true) (split_slash s).
Proof.
  induction s as [|c s IH]; simpl; [repeat constructor|].
  destruct (Ascii.eqb c "/"%char) eqn:Ec; [constructor; [reflexivity|exact IH]|].
  destruct (split_slash s) as [|x xs]; [repeat constructor; unfold no_slash; simpl; rewrite Ec; reflexivity|].
  inversion IH as [|? ? Hx Hxs]; subst. constructor; [|exact Hxs].
  unfold no_slash in *. simpl. rewrite Ec, Hx. reflexivity.
Qed.

Lemma body_components_in (l : list string) (s : string) :
  In (Normal s) (body_components l) -> In s l.
Proof.
  induction l as [|x l IH]; simpl; [intros []|].
  destruct (String.eqb_spec x ""); [intros H; right; exact (IH H)|].
  destruct (String.eqb_spec x "."); [intros H; right; exact (IH H)|].
  destruct (String.eqb_spec x ".."); simpl.
  - intros [H|H]; [discriminate H|right; exact (IH H)].
  - intros [H|H]; [injection H as ->; left; reflexivity|right; exact (IH H)].
Qed.

Lemma components_in (p s : string) : In (Normal s) (components p) -> In s (split_slash p).
Proof.
  unfold components. destruct p as [|ch rest]; [intros []|].
  destruct (Ascii.eqb ch "/"%char).
  - intros [H|H]; [discriminate H|]. apply body_components_in in H.
    destruct (split_slash (String ch rest)); [destruct H|right; exact H].
  - destruct (split_slash (String ch rest)) as [|x xs]; [intros []|].
    destruct (String.eqb x "."%string).
    + intros [H|H]; [discriminate H|]. right. exact (body_components_in _ _ H).
    + apply body_components_in.
Qed.

Lemma file_name_no_slash (p f : string) : file_name p = Some f -> no_slash f = true.
Proof.
  unfold file_name. destruct (last_component (components p)) as [c|] eqn:E; [|discriminate].
  destruct c as [| | |s]; try discriminate. intros [= <-].
  apply last_component_in, components_in in E.
  pose proof (split_slash_no_slash_all p) as Hall. rewrite List.Forall_forall in Hall. exact (Hall _ E).
Qed.

Lemma rsplit_dot_some (f b a : string) : rsplit_dot f = Some (b, a) -> f = (b +:+ String "." a)%string.
Proof.
  revert b a. induction f as [|c f IH]; intros b a; [discriminate|]. simpl.
  destruct (rsplit_dot f) as [[b' a']|] eqn:E.
  - intros [= <- <-]. rewrite app_cons, <- (IH b' a' eq_refl). reflexivity.
  - destruct (Ascii.eqb_spec c "."%char) as [->|]; [intros [= <- <-]; reflexivity|discriminate].
Qed.

Lemma file_stem_no_slash (p stem : string) : file_stem p = Some stem -> no_slash stem = true.
Proof.
  unfold file_stem. destruct (file_name p) as [f|] eqn:Ef; [|discriminate].
  apply file_name_no_slash in Ef.
  unfold rsplit_file_at_dot.
  destruct (String.eqb f ".."); [intros [= <-]; exact Ef|].
  destruct (rsplit_dot f) as [[b a]|] eqn:Er; [|intros [= <-]; exact Ef].
  apply rsplit_dot_some in Er. subst f. rewrite no_slash_app in Ef. apply andb_prop in Ef as [Eb Ea].
  destruct (String.eqb b ""); intros [= <-]; [rewrite no_slash_app, Eb; exact Ea|exact Eb].
Qed.

Lemma eqb_longer (name s : string) :
  (String.length s < String.length name)%nat -> String.eqb name s = false.
Proof. intros H. destruct (String.eqb_spec name s) as [->|]; [lia|reflexivity]. Qed.

Lemma good_seg_suffix (stem sfx : string) :
  no_slash stem = true -> no_slash sfx = true -> (3 <= String.length sfx)%nat ->
  good_seg (stem +:+ sfx) = true.
Proof.
  intros Hs Hx Hl. unfold good_seg. rewrite no_slash_app, Hs, Hx.
  rewrite !eqb_longer by (rewrite str_length_app; simpl; lia). reflexivity.
Qed.

Lemma chunk_suffix_no_m (n : N) (ext : string) :
  Forall (fun c => c <> "m"%char) (list_ascii_of_string ext) ->
  contains (String "_" ("chunk_" +:+ fmt04 n +:+ "." +:+ ext)) "manifest" = false.
Proof.
  intros He. apply no_m_contains.
  change (list_ascii_of_string (String "_" ("chunk_" +:+ fmt04 n +:+ "." +:+ ext)))
    with ("_"%char :: list_ascii_of_string ("chunk_" +:+ fmt04 n +:+ "." +:+ ext)).
  rewrite !list_ascii_app. constructor; [discriminate|].
  apply Forall_app. split; [repeat constructor; discriminate|].
  apply Forall_app. split; [apply digits_not_m, fmt04_digits|].
  apply Forall_app. split; [repeat constructor; discriminate|exact He].
Qed.

Lemma chunk_name_filters (stem : string) (n : N) :
  dir_chunk_filter (stem +:+ "_chunk_" +:+ fmt04 n +:+ "." +:+ "parquet") = negb (contains stem "manifest") /\
  stem_chunk_filter stem (stem +:+ "_chunk_" +:+ fmt04 n +:+ "." +:+ "parquet") = negb (contains stem "manifest").
Proof.
  set (name := (stem +:+ "_chunk_" +:+ fmt04 n +:+ "." +:+ "parquet")%string).
  assert (Hm : contains name "manifest" = contains stem "manifest").
  { unfold name. rewrite app_cons.
    rewrite contains_app_sep by (discriminate || reflexivity).
    rewrite chunk_suffix_no_m by (repeat constructor; discriminate). apply orb_false_r. }
  assert (He : ends_with name ".parquet" = true).
  { replace name with ((stem +:+ "_chunk_" +:+ fmt04 n) +:+ ".parquet")%string
      by (unfold name; rewrite !str_app_assoc; reflexivity).
    apply ends_with_app. }
  assert (Hc : contains name "chunk" = true).
  { apply contains_app_r. reflexivity. }
  assert (Hs : starts_with name stem = true) by apply prefix_app.
  unfold dir_chunk_filter, stem_chunk_filter. rewrite Hm, He, Hc, Hs. split; reflexivity.
Qed.

Lemma manifest_name_filters (stem : string) :
  dir_chunk_filter (stem +:+ "_manifest.json") = false /\
  stem_chunk_filter stem (stem +:+ "_manifest.json") = false.
Proof.
  assert (Hm : contains (stem +:+ "_manifest.json") "manifest" = true)
    by (apply contains_app_r; reflexivity).
  unfold dir_chunk_filter, stem_chunk_filter. rewrite Hm, !andb_false_r. split; reflexivity.
Qed.

(** X11: for a base output path with extension [parquet], the file name of
    every chunk path the rotating writer computes passes both filters of
    [find_chunk_files] exactly when the stem does not contain ["manifest"],
    and the manifest's file name passes neither. *)
Theorem aggregate_filters_match_writer_files (cfg : RotatingWriterConfig) (n : N) (p q stem : string) :
  extension (base_output_path cfg) = Some "parquet"%string ->
  file_stem (base_output_path cfg) = Some stem ->
  (get_chunk_path cfg n = Ok p ->
   exists name, file_name p = Some name /\
     dir_chunk_filter name = negb (contains stem "manifest") /\
     stem_chunk_filter stem name = negb (contains stem "manifest")) /\
  (get_manifest_path cfg = Ok q ->
   exists name, file_name q = Some name /\
     dir_chunk_filter name = false /\ stem_chunk_filter stem name = false).
Proof.
  intros Hext Hstem. pose proof (file_stem_no_slash _ _ Hstem) as Hns. split.
  - unfold get_chunk_path. rewrite Hstem, Hext. intros [= <-].
    exists (stem +:+ "_chunk_" +:+ fmt04 n +:+ "." +:+ "parquet")%string. split.
    + apply file_name_join, good_seg_suffix; [exact Hns| |].
      * rewrite !no_slash_app, (digits_no_slash _ (fmt04_digits n)). reflexivity.
      * rewrite str_length_app. simpl. lia.
    + apply chunk_name_filters.
  - intros Hq. destruct (get_manifest_path_ok _ _ Hq) as (stem' & Hs' & ->).
    rewrite Hstem in Hs'. injection Hs' as <-.
    exists (stem +:+ "_manifest.json")%string. split.
    + apply file_name_join, good_seg_suffix; [exact Hns|reflexivity|simpl; lia].
    + apply manifest_name_filters.
Qed.

Lemma aggregate_filters_match_writer_files_witness :
  (exists name, file_name "/out/scan_chunk_0007.parquet" = Some name /\
     dir_chunk_filter name = negb (contains "scan" "manifest") /\
     stem_chunk_filter "scan" name = negb (contains "scan" "manifest")) /\
  (exists name, file_name "/out/scan_manifest.json" = Some name /\
     dir_chunk_filter name = false /\ stem_chunk_filter "scan" name = false).
Proof.
  destruct (aggregate_filters_match_writer_files (sample_config 5) 7
              "/out/scan_chunk_0007.parquet" "/out/scan_manifest.json" "scan"
              ltac:(vm_compute; reflexivity) ltac:(vm_compute; reflexivity)) as [H1 H2].
  split; [apply H1|apply H2]; vm_compute; reflexivity.
Defined.

Lemma nulls_map_some {A B} (f : A -> B) (l : list A) : nulls (map (fun x => Some (f x)) l) = 0%nat.
Proof. induction l as [|x l IH]; [reflexivity|]. exact IH. Qed.

(** X12: [entries_to_record_batch] fails exactly when one of its string
    columns holds more than [i32::MAX] bytes, and then it panics in
    [collect()]. Otherwise [RecordBatch::try_new] accepts the columns: the
    batch has the schema of [create_schema], one row per entry, and every
    column has one value per entry. *)
Theorem entries_to_record_batch_spec (entries : list FileEntry) :
  match entries_to_record_batch entries with
  | Ok rb =>
      string_columns_fit entries = true /\
      num_rows rb = length entries /\ rb_schema rb = create_schema /\
      Forall (fun c => array_len c = length entries) (rb_columns rb)
  | Err er =>
      string_columns_fit entries = false /\ er = Panic "byte array offset overflow"
  end.
Proof.
  unfold entries_to_record_batch, collect_string_array, string_columns_fit.
  destruct (value_bytes (map (fun e => Some (path e)) entries) <=? i32_max);
    [rewrite bind_ok|split; reflexivity].
  destruct (value_bytes (map (fun e => Some (file_type e)) entries) <=? i32_max);
    [rewrite bind_ok|split; reflexivity].
  destruct (value_bytes (map (fun e => Some (parent_path e)) entries) <=? i32_max);
    [rewrite bind_ok|split; reflexivity].
  destruct (value_bytes (map (fun e => Some (top_level_dir e)) entries) <=? i32_max);
    [rewrite bind_ok|split; reflexivity].
  unfold record_batch_try_new.
  cbn [combine existsb fst snd nullable data_type array_type data_type_eqb null_count array_len
       length negb andb orb create_schema Nat.eqb].
  rewrite !nulls_map_some, !length_map, Nat.eqb_refl. cbn.
  split; [reflexivity|]. split; [reflexivity|]. split; [reflexivity|].
  repeat constructor; apply length_map.
Qed.

(** X13: every batch the batching thread sends, except the last, holds
    exactly [batch_size] entries; with [batch_size = 0] every entry is sent
    alone. *)
Theorem batcher_full_batches (batch_size : nat) (input : list FileEntry) :
  Forall (fun b => length b = Nat.max 1 batch_size) (removelast (batcher batch_size input)).
Proof. apply batch_loop_full. simpl. lia. Qed.

(** X3: two chunk numbers below [2^64] give the same chunk path only when
    they are equal, and no chunk path is the manifest path. *)
Theorem chunk_paths_distinct (cfg : RotatingWriterConfig) (n m : N) (p q : string) :
  n < 2 ^ 64 -> m < 2 ^ 64 ->
  get_chunk_path cfg n = Ok p -> get_chunk_path cfg m = Ok q ->
  (p = q <-> n = m) /\ get_manifest_path cfg <> Ok p.
Proof.
  intros Hn Hm Hp Hq. split; [split|].
  - intros <-. exact (chunk_path_inj cfg n m p Hn Hm Hp Hq).
  - intros <-. rewrite Hp in Hq. injection Hq as ->. reflexivity.
  - exact (chunk_path_not_manifest cfg n p Hp).
Qed.

Lemma chunk_paths_distinct_witness :
  ("/out/scan_chunk_0001.parquet" = "/out/scan_chunk_0002.parquet" <-> 1 = 2)%string /\
  get_manifest_path (sample_config 5) <> Ok "/out/scan_chunk_0001.parquet"%string.
Proof.
  apply (chunk_paths_distinct (sample_config 5) 1 2); [lia|lia|reflexivity|reflexivity].
Defined.

Lemma format_number_digits_witness :
  strip_commas (Utils.format_number 1234567) = to_decimal 1234567 /\
  dec_value (to_decimal 1234567) = 1234567 /\
  Forall (fun c => is_digit c = true) (list_ascii_of_string (to_decimal 1234567)).
Proof. apply format_number_digits. lia. Defined.

Lemma format_number_separators_witness :
  (1234567 < 1000 -> Utils.format_number 1234567 = to_decimal 1234567) /\
  (1000 <= 1234567 -> In ","%char (list_ascii_of_string (Utils.format_number 1234567))).
Proof. apply format_number_separators. lia. Defined.
